(** * Provenance map of the CTFE / Miri abstract memory

    Shallow embedding of
    [compiler/rustc_middle/src/mir/interpret/allocation/provenance_map.rs].

    Offsets ([Size]) are modelled as [N].  [Size] arithmetic in rustc panics
    on overflow; offsets here are unbounded, so the overflow panics are not
    modelled. *)

From Stdlib Require Import NArith List Lia Bool Sorting.Sorted.
Import ListNotations.
Open Scope N_scope.

(** ** The ordered range store ([rustc_data_structures::sorted_map::SortedMap]) *)

(** Modelled from the spec: the Ordered Range Store ([SortedMap], which lives
    in [rustc_data_structures], outside the translated file) is an association
    list kept strictly increasing by key.  [range lo hi] returns the entries
    whose key lies in [lo..hi], in order. *)
Module SortedMap.

Definition t (V : Type) := list (N * V).

Section Ops.
Context {V : Type}.

Definition in_range (lo hi k : N) : bool := (lo <=? k) && (k <? hi).

(** Modelled from the spec: [SortedMap::range]. *)
Definition range (lo hi : N) (m : t V) : t V :=
  filter (fun kv => in_range lo hi (fst kv)) m.

(** Modelled from the spec: [SortedMap::remove_range]. *)
Definition remove_range (lo hi : N) (m : t V) : t V :=
  filter (fun kv => negb (in_range lo hi (fst kv))) m.

(** Modelled from the spec: [SortedMap::get] (and indexing [m[&k]]). *)
Fixpoint get (k : N) (m : t V) : option V :=
  match m with
  | [] => None
  | (k', v) :: m' => if k =? k' then Some v else get k m'
  end.

(** Modelled from the spec: [SortedMap::insert] (insert or overwrite). *)
Fixpoint insert (k : N) (v : V) (m : t V) : t V :=
  match m with
  | [] => [(k, v)]
  | (k', v') :: m' =>
      if k <? k' then (k, v) :: m
      else if k =? k' then (k, v) :: m'
      else (k', v') :: insert k v m'
  end.

(** Modelled from the spec: [SortedMap::insert_presorted]; on a strictly
    increasing input its result is that of inserting the elements one by one
    (the splice fast path is a performance strategy of the container). *)
Definition insert_presorted (es : t V) (m : t V) : t V :=
  fold_left (fun acc kv => insert (fst kv) (snd kv) acc) es m.

(** Modelled from the spec: [SortedMap::from_presorted_elements]. *)
Definition from_presorted_elements (es : t V) : t V := es.

Definition is_empty (m : t V) : bool :=
  match m with [] => true | _ => false end.

End Ops.
End SortedMap.

(** ** Provenance, data layout, ranges, errors *)

(** The [Provenance] trait, reduced to the capability constant this file
    reads. *)
Class Provenance (Prov : Type) := OFFSET_IS_ADDR : bool.

(** [AllocId] provenance: [OFFSET_IS_ADDR] is false (see [ptrs()]). *)
Definition AllocId := N.
#[export] Instance AllocId_Provenance : Provenance AllocId := false.

(** A provenance type whose offset is the address (as Miri's provenance):
    [OFFSET_IS_ADDR] is true.  Used for concrete runs of the splittable case. *)
Record ExposedProv := MkExposedProv { exposed_alloc : N; exposed_tag : N }.
#[export] Instance ExposedProv_Provenance : Provenance ExposedProv := true.

Record DataLayout := MkDataLayout { pointer_size : N }.

Record AllocRange := { alloc_start : N; alloc_size : N }.
Definition alloc_range (start size : N) : AllocRange :=
  {| alloc_start := start; alloc_size := size |}.
Definition alloc_end (r : AllocRange) : N := alloc_start r + alloc_size r.

Inductive AllocError :=
| PartialPointerOverwrite (offset : N)
| PartialPointerCopy (offset : N).

(** [AllocResult<A>], plus the outcome of a panic (failed [assert!] or a
    missing key in [m[&k]]). *)
Inductive Outcome (A : Type) :=
| Ok (a : A)
| Err (e : AllocError)
| Panic.
Arguments Ok {A} a.
Arguments Err {A} e.
Arguments Panic {A}.

(** [lo..hi] as a list of offsets. *)
Fixpoint nrange_aux (lo : N) (n : nat) : list N :=
  match n with
  | O => []
  | S n' => lo :: nrange_aux (lo + 1) n'
  end.
Definition nrange (lo hi : N) : list N := nrange_aux lo (N.to_nat (hi - lo)).

Definition last_opt {A} (l : list A) : option A :=
  match l with [] => None | x :: l' => Some (last l' x) end.

(** ** The provenance map *)

Record ProvenanceMap (Prov : Type) := MkProvenanceMap {
  ptrs : SortedMap.t Prov;
  bytes : SortedMap.t Prov
}.
Arguments MkProvenanceMap {Prov} ptrs bytes.
Arguments ptrs {Prov} _.
Arguments bytes {Prov} _.

Record ProvenanceCopy (Prov : Type) := MkProvenanceCopy {
  dest_ptrs : list (N * Prov);
  dest_bytes : list (N * Prov)
}.
Arguments MkProvenanceCopy {Prov} dest_ptrs dest_bytes.
Arguments dest_ptrs {Prov} _.
Arguments dest_bytes {Prov} _.

Section Map.
Context {Prov : Type} `{Provenance Prov}.
Variable cx : DataLayout.

Local Abbreviation PM := (ProvenanceMap Prov).
Local Abbreviation ps := (pointer_size cx).

Definition new : PM := MkProvenanceMap [] [].

Definition from_presorted_ptrs (r : list (N * Prov)) : PM :=
  MkProvenanceMap (SortedMap.from_presorted_elements r) [].

Definition range_get_ptrs (m : PM) (range : AllocRange) : list (N * Prov) :=
  let adjusted_start := alloc_start range - (ps - 1) in
  SortedMap.range adjusted_start (alloc_end range) (ptrs m).

Definition range_get_bytes (m : PM) (range : AllocRange) : list (N * Prov) :=
  SortedMap.range (alloc_start range) (alloc_end range) (bytes m).

Definition get (m : PM) (offset : N) : option Prov :=
  match range_get_ptrs m (alloc_range offset 1) with
  | entry :: _ => Some (snd entry)
  | [] => SortedMap.get offset (bytes m)
  end.

Definition get_ptr (m : PM) (offset : N) : option Prov :=
  SortedMap.get offset (ptrs m).

Definition range_empty (m : PM) (range : AllocRange) : bool :=
  SortedMap.is_empty (range_get_ptrs m range)
  && SortedMap.is_empty (range_get_bytes m range).

Definition provenances (m : PM) : list Prov :=
  map snd (ptrs m) ++ map snd (bytes m).

(** The [debug_assert!] of [insert_ptr] is a contract, not part of the
    release behaviour. *)
Definition insert_ptr (m : PM) (offset : N) (prov : Prov) : PM :=
  MkProvenanceMap (SortedMap.insert offset prov (ptrs m)) (bytes m).

(** *** A state and error monad for [&mut self] methods returning [AllocResult] *)

Definition ST (A : Type) := PM -> PM * Outcome A.

Definition ret {A} (a : A) : ST A := fun s => (s, Ok a).
Definition bind {A B} (x : ST A) (f : A -> ST B) : ST B :=
  fun s => match x s with
           | (s', Ok a) => f a s'
           | (s', Err e) => (s', Err e)
           | (s', Panic) => (s', Panic)
           end.
Definition throw {A} (e : AllocError) : ST A := fun s => (s, Err e).
Definition panic {A} : ST A := fun s => (s, Panic).
Definition get_state : ST PM := fun s => (s, Ok s).
Definition modify (f : PM -> PM) : ST unit := fun s => (f s, Ok tt).

Local Notation "x <- c1 ;; c2" := (bind c1 (fun x => c2))
  (at level 61, c1 at next level, right associativity).
Local Notation "c1 ;; c2" := (bind c1 (fun _ => c2)) (at level 61, right associativity).

(** [self.ptrs[&k]]: panics on a missing key. *)
Definition index_ptrs (k : N) : ST Prov :=
  m <- get_state ;;
  match SortedMap.get k (ptrs m) with
  | Some p => ret p
  | None => panic
  end.

(** [for offset in lo..hi { self.bytes.insert(offset, prov) }] *)
Definition insert_bytes_loop (lo hi : N) (prov : Prov) (b : SortedMap.t Prov)
  : SortedMap.t Prov :=
  fold_left (fun acc o => SortedMap.insert o prov acc) (nrange lo hi) b.

Definition set_bytes (b : SortedMap.t Prov) (m : PM) : PM := MkProvenanceMap (ptrs m) b.
Definition set_ptrs (p : SortedMap.t Prov) (m : PM) : PM := MkProvenanceMap p (bytes m).

Definition clear (range : AllocRange) : ST unit :=
  let start := alloc_start range in
  let end_ := alloc_end range in
  (if OFFSET_IS_ADDR
   then modify (fun m => set_bytes (SortedMap.remove_range start end_ (bytes m)) m)
   else ret tt) ;;
  m <- get_state ;;
  match range_get_ptrs m range with
  | [] => ret tt
  | e :: rest =>
      let first := fst e in
      let last_ := fst (last rest e) + ps in
      (if first <? start then
         if negb OFFSET_IS_ADDR then throw (PartialPointerOverwrite first)
         else
           prov <- index_ptrs first ;;
           modify (fun m => set_bytes (insert_bytes_loop first start prov (bytes m)) m)
       else ret tt) ;;
      (if end_ <? last_ then
         let begin_of_last := last_ - ps in
         if negb OFFSET_IS_ADDR then throw (PartialPointerOverwrite begin_of_last)
         else
           prov <- index_ptrs begin_of_last ;;
           modify (fun m => set_bytes (insert_bytes_loop end_ last_ prov (bytes m)) m)
       else ret tt) ;;
      modify (fun m => set_ptrs (SortedMap.remove_range first last_ (ptrs m)) m)
  end.

(** *** Copy planning *)

Definition shift_offset (src : AllocRange) (dest : N) (idx offset : N) : N :=
  (offset - alloc_start src) + (dest + alloc_size src * idx).

(** [for i in 0..count { buf.extend(l.iter().map(|(o, p)| (shift_offset(i, o), p))) }] *)
Definition repeat_shifted (src : AllocRange) (dest count : N) (l : list (N * Prov))
  : list (N * Prov) :=
  flat_map (fun i => map (fun kv => (shift_offset src dest i (fst kv), snd kv)) l)
           (nrange 0 count).

(** Pointer-sized provenance entirely inside [src]. *)
Definition copy_ptrs (m : PM) (src : AllocRange) : list (N * Prov) :=
  if alloc_size src <? ps then []
  else
    let adjusted_end := alloc_end src - (ps - 1) in
    SortedMap.range (alloc_start src) adjusted_end (ptrs m).

(** The end-fragment loop with its de-duplication against [bytes.last()]. *)
Fixpoint push_end_fragment (offs : list N) (entry : N * Prov) (src_start : N)
         (bs : list (N * Prov)) : Outcome (list (N * Prov)) :=
  match offs with
  | [] => Ok bs
  | offset :: offs' =>
      if match last_opt bs with None => true | Some be => fst be <? offset end
      then push_end_fragment offs' entry src_start (bs ++ [(offset, snd entry)])
      else if fst entry <=? src_start
           then push_end_fragment offs' entry src_start bs
           else Panic
  end.

(** The byte-sized provenance of one repetition, before shifting. *)
Definition copy_bytes (m : PM) (src : AllocRange) : Outcome (list (N * Prov)) :=
  let start_part :=
    match range_get_ptrs m (alloc_range (alloc_start src) 0) with
    | entry :: _ =>
        if negb OFFSET_IS_ADDR then Err (PartialPointerCopy (fst entry))
        else
          let entry_end := N.min (fst entry + ps) (alloc_end src) in
          Ok (map (fun o => (o, snd entry)) (nrange (alloc_start src) entry_end))
    | [] => Ok []
    end in
  match start_part with
  | Err e => Err e
  | Panic => Panic
  | Ok bs =>
      let bs := bs ++ (if OFFSET_IS_ADDR
                       then SortedMap.range (alloc_start src) (alloc_end src) (bytes m)
                       else []) in
      match range_get_ptrs m (alloc_range (alloc_end src) 0) with
      | entry :: _ =>
          if negb OFFSET_IS_ADDR then Err (PartialPointerCopy (fst entry))
          else
            let entry_start := N.max (fst entry) (alloc_start src) in
            push_end_fragment (nrange entry_start (alloc_end src)) entry (alloc_start src) bs
      | [] => Ok bs
      end
  end.

Definition prepare_copy (m : PM) (src : AllocRange) (dest count : N)
  : Outcome (ProvenanceCopy Prov) :=
  let dest_ptrs := repeat_shifted src dest count (copy_ptrs m src) in
  match copy_bytes m src with
  | Ok bs => Ok (MkProvenanceCopy dest_ptrs (repeat_shifted src dest count bs))
  | Err e => Err e
  | Panic => Panic
  end.

Definition apply_copy (m : PM) (copy : ProvenanceCopy Prov) : PM :=
  MkProvenanceMap
    (SortedMap.insert_presorted (dest_ptrs copy) (ptrs m))
    (if OFFSET_IS_ADDR then SortedMap.insert_presorted (dest_bytes copy) (bytes m)
     else bytes m).

(** *** The documented invariants *)

Definition key_lt (a b : N * Prov) : Prop := fst a < fst b.

(** Keys strictly increasing: the [SortedMap] representation invariant. *)
Definition sorted_store (l : SortedMap.t Prov) : Prop := StronglySorted key_lt l.

(** "Two entries in this map are always at least a pointer size apart." *)
Definition spaced (l : SortedMap.t Prov) : Prop :=
  forall a b, In a l -> In b l -> fst a < fst b -> fst a + ps <= fst b.

(** "This map is disjoint from the previous." *)
Definition bytes_outside_ptrs (m : PM) : Prop :=
  forall a b, In a (ptrs m) -> In b (bytes m) -> ~ (fst a <= fst b < fst a + ps).

(** "It will always be empty when [Prov::OFFSET_IS_ADDR] is false." *)
Definition bytes_empty_if_unsplittable (m : PM) : Prop :=
  OFFSET_IS_ADDR = false -> bytes m = [].

Definition disjointness_inv (m : PM) : Prop :=
  spaced (ptrs m) /\ bytes_outside_ptrs m /\ bytes_empty_if_unsplittable m.

Definition wf (m : PM) : Prop :=
  sorted_store (ptrs m) /\ sorted_store (bytes m) /\ disjointness_inv m.

(** Maps built by the public operations, under their documented
    preconditions: [insert_ptr] on an empty pointer-sized span, and
    [apply_copy] on a destination whose affected range was cleared. *)
Inductive reachable : PM -> Prop :=
| reachable_new : reachable new
| reachable_presorted r :
    sorted_store r -> spaced r -> reachable (from_presorted_ptrs r)
| reachable_insert_ptr m o p :
    reachable m -> range_empty m (alloc_range o ps) = true ->
    reachable (insert_ptr m o p)
| reachable_clear m r m' res :
    reachable m -> clear r m = (m', res) -> reachable m'
| reachable_copy m m' s src dest count c :
    reachable m -> reachable s -> prepare_copy s src dest count = Ok c ->
    clear (alloc_range dest (alloc_size src * count)) m = (m', Ok tt) ->
    reachable (apply_copy m' c).

End Map.

(** ** Proofs *)

Ltac nbool :=
  repeat match goal with
  | H : (_ <=? _) = true |- _ => apply N.leb_le in H
  | H : (_ <=? _) = false |- _ => apply N.leb_gt in H
  | H : (_ <? _) = true |- _ => apply N.ltb_lt in H
  | H : (_ <? _) = false |- _ => apply N.ltb_ge in H
  | H : (_ =? _) = true |- _ => apply N.eqb_eq in H
  | H : (_ =? _) = false |- _ => apply N.eqb_neq in H
  | H : (_ && _) = true |- _ => apply andb_true_iff in H; destruct H
  | H : (_ && _) = false |- _ => apply andb_false_iff in H
  | H : negb _ = true |- _ => apply negb_true_iff in H
  | H : negb _ = false |- _ => apply negb_false_iff in H
  end.

Ltac ncase e := let Hc := fresh "Hc" in destruct e eqn:Hc; nbool.

(** *** Offsets ranges *)

Lemma nrange_aux_In lo n o : In o (nrange_aux lo n) <-> lo <= o < lo + N.of_nat n.
Proof.
  revert lo; induction n as [|n IH]; intros lo; simpl.
  - lia.
  - rewrite IH. lia.
Qed.

Lemma nrange_In lo hi o : In o (nrange lo hi) <-> lo <= o < hi.
Proof. unfold nrange. rewrite nrange_aux_In. lia. Qed.

Lemma nrange_aux_sorted lo n : StronglySorted N.lt (nrange_aux lo n).
Proof.
  revert lo; induction n as [|n IH]; intros lo; simpl; constructor; auto.
  apply Forall_forall. intros x Hx. apply nrange_aux_In in Hx. lia.
Qed.

Lemma nrange_sorted lo hi : StronglySorted N.lt (nrange lo hi).
Proof. apply nrange_aux_sorted. Qed.

(** *** Strongly sorted lists *)

Lemma SS_app {A} (R : A -> A -> Prop) l1 l2 :
  StronglySorted R l1 -> StronglySorted R l2 ->
  (forall x y, In x l1 -> In y l2 -> R x y) ->
  StronglySorted R (l1 ++ l2).
Proof.
  induction l1 as [|a l1 IH]; simpl; intros H1 H2 H12; auto.
  inversion H1; subst. constructor.
  - apply IH; auto.
  - apply Forall_app; split; auto.
    apply Forall_forall; intros; auto.
Qed.

Lemma SS_filter {A} (R : A -> A -> Prop) f l :
  StronglySorted R l -> StronglySorted R (filter f l).
Proof.
  induction l as [|a l IH]; simpl; intros Hs; auto.
  inversion Hs; subst. destruct (f a); auto.
  constructor; auto.
  apply Forall_forall. intros x Hx. apply filter_In in Hx.
  eapply Forall_forall in H2; eauto. tauto.
Qed.

Lemma SS_map {A B} (R : A -> A -> Prop) (R' : B -> B -> Prop) (f : A -> B) l :
  (forall x y, In x l -> In y l -> R x y -> R' (f x) (f y)) ->
  StronglySorted R l -> StronglySorted R' (map f l).
Proof.
  induction l as [|a l IH]; simpl; intros Hf Hs; constructor;
    inversion Hs; subst.
  - apply IH; auto.
  - apply Forall_forall. intros y Hy. apply in_map_iff in Hy as [x [<- Hx]].
    apply Hf; auto. eapply Forall_forall in H2; eauto.
Qed.

Lemma SS_head {A} (R : A -> A -> Prop) a l y :
  StronglySorted R (a :: l) -> In y l -> R a y.
Proof. intros Hs Hy. inversion Hs; subst. eapply Forall_forall in H2; eauto. Qed.

Lemma last_cons {A} (a : A) l d : last (a :: l) d = last l a.
Proof.
  revert a d; induction l as [|b l IH]; intros a d; [reflexivity|].
  change (last (b :: l) d = last (b :: l) a). rewrite !IH. reflexivity.
Qed.

Lemma last_In {A} (l : list A) (d : A) : In (last l d) (d :: l).
Proof.
  revert d; induction l as [|a l IH]; intros d; [simpl; auto|].
  right. rewrite last_cons. apply IH.
Qed.

Lemma SS_last {A} (R : A -> A -> Prop) (l : list A) (d : A) y :
  StronglySorted R (d :: l) -> In y (d :: l) -> y = last l d \/ R y (last l d).
Proof.
  revert d y; induction l as [|a l IH]; intros d y Hs Hy.
  - simpl in Hy. destruct Hy as [->|[]]. auto.
  - inversion Hs; subst. rewrite last_cons.
    destruct Hy as [<-|Hy].
    + right. eapply Forall_forall; [exact H2|]. apply last_In.
    + apply IH; auto.
Qed.

Lemma SS_flat_map {A B} (Ri : A -> A -> Prop) (R : B -> B -> Prop) (f : A -> list B) idx :
  StronglySorted Ri idx -> (forall i, In i idx -> StronglySorted R (f i)) ->
  (forall i j x y, In i idx -> In j idx -> Ri i j -> In x (f i) -> In y (f j) -> R x y) ->
  StronglySorted R (flat_map f idx).
Proof.
  induction idx as [|i idx IH]; simpl; intros Hs Hf Hx; [constructor|].
  inversion Hs; subst. apply SS_app.
  - apply Hf; left; reflexivity.
  - apply IH; [assumption| |].
    + intros i' Hi'; apply Hf; right; exact Hi'.
    + intros i' j x y Hi Hj; apply Hx; right; assumption.
  - intros x y Hxi Hy. apply in_flat_map in Hy as [j [Hj Hy]].
    apply (Hx i j); [left; reflexivity|right; exact Hj| |exact Hxi|exact Hy].
    eapply Forall_forall in H2; eauto.
Qed.

Lemma SS_NoDup_keys {V} (l : list (N * V)) :
  StronglySorted (fun a b => fst a < fst b) l -> NoDup (map fst l).
Proof.
  induction l as [|a l IH]; simpl; intros Hs; constructor.
  - intros Hin. apply in_map_iff in Hin as [x [Ex Hx]].
    inversion Hs; subst. eapply Forall_forall in H2; eauto. lia.
  - inversion Hs; auto.
Qed.

Lemma last_opt_max {A} (R : A -> A -> Prop) (l : list A) be y :
  StronglySorted R l -> last_opt l = Some be -> In y l -> y = be \/ R y be.
Proof.
  destruct l as [|a l]; simpl; [discriminate|]. intros Hs E Hy. inversion E; subst.
  apply SS_last; auto.
Qed.

Lemma last_opt_none {A} (l : list A) : last_opt l = None -> l = [].
Proof. destruct l; simpl; congruence. Qed.

(** *** The store operations *)

Module StoreFacts.
Section Facts.
Context {V : Type}.
Implicit Types (m : SortedMap.t V) (kv : N * V).

Definition klt (a b : N * V) : Prop := fst a < fst b.

Lemma in_range_spec lo hi k : SortedMap.in_range lo hi k = true <-> lo <= k < hi.
Proof.
  unfold SortedMap.in_range. rewrite andb_true_iff, N.leb_le, N.ltb_lt. tauto.
Qed.

Lemma In_range lo hi m kv :
  In kv (SortedMap.range lo hi m) <-> In kv m /\ lo <= fst kv < hi.
Proof. unfold SortedMap.range. rewrite filter_In, in_range_spec. tauto. Qed.

Lemma In_remove_range lo hi m kv :
  In kv (SortedMap.remove_range lo hi m) <-> In kv m /\ ~ (lo <= fst kv < hi).
Proof.
  unfold SortedMap.remove_range. rewrite filter_In, negb_true_iff.
  rewrite <- not_true_iff_false, in_range_spec. tauto.
Qed.

Lemma sorted_range lo hi m :
  StronglySorted klt m -> StronglySorted klt (SortedMap.range lo hi m).
Proof. apply SS_filter. Qed.

Lemma sorted_remove_range lo hi m :
  StronglySorted klt m -> StronglySorted klt (SortedMap.remove_range lo hi m).
Proof. apply SS_filter. Qed.

Lemma In_insert k v m kv :
  StronglySorted klt m ->
  In kv (SortedMap.insert k v m) <-> kv = (k, v) \/ (In kv m /\ fst kv <> k).
Proof.
  induction m as [|[k' v'] m IH]; intros Hs; simpl.
  - split; [intros [Ex|[]]; auto|intros [Ex|[[] _]]; auto].
  - inversion Hs; subst.
    assert (Hm : forall x, In x m -> k' < fst x)
      by (intros x Hx; eapply Forall_forall in H2; eauto).
    ncase (k <? k'); [|ncase (k =? k')]; simpl.
    + split.
      * intros [Ex|[Ex|Hin]].
        -- left; auto.
        -- right; subst kv; simpl; split; auto; lia.
        -- right; split; auto. specialize (Hm _ Hin); lia.
      * intros [Ex|[[Ex|Hin] Hne]]; auto.
    + subst k'. split.
      * intros [Ex|Hin]; [left; auto|].
        right; split; auto. specialize (Hm _ Hin); lia.
      * intros [Ex|[[Ex|Hin] Hne]]; auto. subst kv; simpl in Hne; lia.
    + rewrite IH by auto. split.
      * intros [Ex|[Ex|[Hin Hne]]].
        -- right; subst kv; simpl; split; auto; lia.
        -- left; auto.
        -- right; auto.
      * intros [Ex|[[Ex|Hin] Hne]]; auto.
Qed.

Lemma sorted_insert k v m :
  StronglySorted klt m -> StronglySorted klt (SortedMap.insert k v m).
Proof.
  induction m as [|[k' v'] m IH]; intros Hs; simpl.
  - repeat constructor.
  - inversion Hs; subst.
    ncase (k <? k'); [|ncase (k =? k')].
    + constructor; auto. constructor; [unfold klt; simpl; lia|].
      eapply Forall_impl; [|exact H2]. unfold klt; simpl; intros; lia.
    + subst. constructor; auto.
    + constructor; auto. apply Forall_forall. intros x Hx.
      apply In_insert in Hx; auto. destruct Hx as [->|[Hx _]].
      * unfold klt; simpl; lia.
      * eapply Forall_forall in H2; eauto.
Qed.

Lemma get_In_some k m v : In (k, v) m -> exists v', SortedMap.get k m = Some v'.
Proof.
  induction m as [|[k' v'] m IH]; simpl; [tauto|].
  intros [E|Hin].
  - inversion E; subst. rewrite N.eqb_refl. eauto.
  - destruct (k =? k'); eauto.
Qed.

Lemma get_In k m v :
  StronglySorted klt m -> (SortedMap.get k m = Some v <-> In (k, v) m).
Proof.
  induction m as [|[k' v'] m IH]; intros Hs; simpl; [split; [discriminate|tauto]|].
  inversion Hs; subst. ncase (k =? k').
  - subst. split.
    + intros E; inversion E; auto.
    + intros [E|Hin]; [inversion E; auto|].
      eapply Forall_forall in H2; eauto. unfold klt in H2; simpl in H2; lia.
  - rewrite IH by auto. split; auto. intros [E|Hin]; auto. inversion E; lia.
Qed.

Lemma get_None k m : (forall v, ~ In (k, v) m) -> SortedMap.get k m = None.
Proof.
  induction m as [|[k' v'] m IH]; simpl; intros Hn; auto.
  ncase (k =? k').
  - subst. exfalso. eapply Hn; eauto.
  - apply IH. intros v Hv. eapply Hn; eauto.
Qed.

Lemma get_insert o k v m :
  StronglySorted klt m ->
  SortedMap.get o (SortedMap.insert k v m) = if o =? k then Some v else SortedMap.get o m.
Proof.
  induction m as [|[k' v'] m IH]; intros Hs; simpl.
  - ncase (o =? k); auto.
  - inversion Hs; subst.
    ncase (k <? k'); [|ncase (k =? k')]; simpl.
    + reflexivity.
    + subst. ncase (o =? k'); auto.
    + ncase (o =? k'); subst.
      * assert (E' : (k' =? k) = false) by (apply N.eqb_neq; lia). rewrite E'. reflexivity.
      * rewrite IH; auto.
Qed.

Lemma get_remove_range o lo hi m :
  SortedMap.get o (SortedMap.remove_range lo hi m) =
  if SortedMap.in_range lo hi o then None else SortedMap.get o m.
Proof.
  induction m as [|[k' v'] m IH]; simpl.
  - destruct (SortedMap.in_range lo hi o); auto.
  - unfold SortedMap.remove_range in *. simpl.
    ncase (SortedMap.in_range lo hi k'); simpl.
    + rewrite IH. ncase (o =? k'); subst; auto. rewrite Hc; auto.
    + ncase (o =? k'); subst; auto. rewrite Hc; auto.
Qed.

Lemma get_range_none o lo hi m :
  SortedMap.get o m = None -> SortedMap.get o (SortedMap.range lo hi m) = None.
Proof.
  induction m as [|[k' v'] m IH]; simpl; auto.
  unfold SortedMap.range in *. simpl.
  ncase (o =? k'); [discriminate|]. intros Hg.
  destruct (SortedMap.in_range lo hi k'); simpl; auto.
  rewrite (proj2 (N.eqb_neq o k') Hc). auto.
Qed.

Lemma In_insert_weak k v m kv :
  In kv (SortedMap.insert k v m) -> kv = (k, v) \/ In kv m.
Proof.
  induction m as [|[k' v'] m IH]; simpl.
  - intros [Ex|[]]; auto.
  - destruct (k <? k'); [|destruct (k =? k')]; simpl.
    + intros [Ex|[Ex|Hin]]; auto.
    + intros [Ex|Hin]; auto.
    + intros [Ex|Hin]; auto. destruct (IH Hin); auto.
Qed.

Lemma In_insert_self k v m : In (k, v) (SortedMap.insert k v m).
Proof.
  induction m as [|[k' v'] m IH]; simpl; auto.
  destruct (k <? k'); [|destruct (k =? k')]; simpl; auto.
Qed.

Lemma filter_all_true {A} (f : A -> bool) l :
  (forall x, In x l -> f x = true) -> filter f l = l.
Proof.
  induction l as [|a l IH]; simpl; intros Hf; auto.
  rewrite (Hf a (or_introl eq_refl)). f_equal. apply IH; auto.
Qed.

Lemma remove_range_noop lo hi m :
  (forall kv, In kv m -> ~ (lo <= fst kv < hi)) -> SortedMap.remove_range lo hi m = m.
Proof.
  intros Hn. apply filter_all_true. intros x Hx. apply negb_true_iff.
  apply not_true_iff_false. rewrite in_range_spec. apply Hn; auto.
Qed.

Lemma sorted_key_unique k p q m :
  StronglySorted klt m -> In (k, p) m -> In (k, q) m -> p = q.
Proof.
  induction m as [|a m IH]; simpl; [tauto|]. intros Hs Hp Hq.
  inversion Hs; subst.
  assert (Hm : forall x, In x m -> fst a < fst x)
    by (intros x Hx; eapply Forall_forall in H2; eauto).
  destruct Hp as [Ep|Hp], Hq as [Eq|Hq]; subst.
  - congruence.
  - specialize (Hm _ Hq); simpl in Hm; lia.
  - specialize (Hm _ Hp); simpl in Hm; lia.
  - apply IH; auto.
Qed.

Lemma sorted_single_key k p l :
  StronglySorted klt l -> (forall y, In y l -> fst y = k) -> In (k, p) l -> l = [(k, p)].
Proof.
  intros Hs Hk Hin. destruct l as [|a l]; [destruct Hin|].
  inversion Hs; subst. destruct l as [|b l].
  - destruct Hin as [Ex|[]]; subst; auto.
  - exfalso. inversion H2; subst. unfold klt in H3.
    rewrite (Hk a), (Hk b) in H3; simpl; auto. lia.
Qed.

Section Fold.
Context {A : Type} (fk : A -> N) (fv : A -> V).

Definition ins_step (acc : SortedMap.t V) (x : A) : SortedMap.t V :=
  SortedMap.insert (fk x) (fv x) acc.

Lemma fold_ins_sorted xs m :
  StronglySorted klt m -> StronglySorted klt (fold_left ins_step xs m).
Proof.
  revert m; induction xs as [|x xs IH]; intros m Hs; simpl; auto.
  apply IH. apply sorted_insert; auto.
Qed.

Lemma fold_ins_In xs m kv :
  In kv (fold_left ins_step xs m) ->
  In kv m \/ exists x, In x xs /\ kv = (fk x, fv x).
Proof.
  revert m; induction xs as [|x xs IH]; intros m Hin; simpl in *; auto.
  apply IH in Hin.
  destruct Hin as [Hin|[y [Hy ->]]]; eauto.
  unfold ins_step in Hin. apply In_insert_weak in Hin.
  destruct Hin as [->|Hin]; eauto.
Qed.

Lemma fold_ins_get xs m o p :
  StronglySorted klt m -> (forall x, In x xs -> fv x = p) ->
  SortedMap.get o (fold_left ins_step xs m) =
  if existsb (fun x => fk x =? o) xs then Some p else SortedMap.get o m.
Proof.
  revert m; induction xs as [|x xs IH]; intros m Hs Hp; simpl; auto.
  rewrite IH; [|apply sorted_insert; auto|intros; apply Hp; simpl; auto].
  unfold ins_step. rewrite get_insert by auto.
  ncase (fk x =? o); simpl.
  - subst. rewrite N.eqb_refl. rewrite (Hp x (or_introl eq_refl)).
    destruct (existsb _ xs); reflexivity.
  - rewrite (proj2 (N.eqb_neq o (fk x))) by lia. reflexivity.
Qed.

End Fold.

Lemma sorted_insert_presorted es m :
  StronglySorted klt m -> StronglySorted klt (SortedMap.insert_presorted es m).
Proof. apply (fold_ins_sorted fst snd). Qed.

Lemma In_insert_presorted es m kv :
  In kv (SortedMap.insert_presorted es m) -> In kv m \/ In kv es.
Proof.
  intros Hin. apply (fold_ins_In fst snd) in Hin; auto.
  destruct Hin as [Hin|[x [Hx ->]]]; auto. destruct x; auto.
Qed.

End Facts.
End StoreFacts.

(** *** The provenance map operations *)

Module MapFacts.
Import StoreFacts.

Section Facts.
Context {Prov : Type} `{Provenance Prov}.
Variable cx : DataLayout.
Hypothesis pointer_size_pos : 0 < pointer_size cx.

Local Abbreviation PM := (ProvenanceMap Prov).
Local Abbreviation ps := (pointer_size cx).

Lemma In_range_get_ptrs (m : PM) r kv :
  In kv (range_get_ptrs cx m r) <->
  In kv (ptrs m) /\ fst kv < alloc_end r /\ alloc_start r < fst kv + ps.
Proof.
  unfold range_get_ptrs. rewrite In_range.
  split; intros [Hin Hr]; split; auto; lia.
Qed.

Lemma In_range_get_bytes (m : PM) r kv :
  In kv (range_get_bytes m r) <->
  In kv (bytes m) /\ alloc_start r <= fst kv < alloc_end r.
Proof. unfold range_get_bytes. apply In_range. Qed.

Lemma sorted_loop lo hi p (b : SortedMap.t Prov) :
  StronglySorted klt b -> StronglySorted klt (insert_bytes_loop lo hi p b).
Proof. apply (fold_ins_sorted (fun o => o) (fun _ => p)). Qed.

Lemma In_loop lo hi p (b : SortedMap.t Prov) kv :
  In kv (insert_bytes_loop lo hi p b) ->
  In kv b \/ (lo <= fst kv < hi /\ snd kv = p).
Proof.
  intros Hin. apply (fold_ins_In (fun o => o) (fun _ => p)) in Hin; auto.
  destruct Hin as [Hin|[x [Hx ->]]]; auto. apply nrange_In in Hx. simpl; auto.
Qed.

Lemma get_loop lo hi p (b : SortedMap.t Prov) o :
  StronglySorted klt b ->
  SortedMap.get o (insert_bytes_loop lo hi p b) =
  if (lo <=? o) && (o <? hi) then Some p else SortedMap.get o b.
Proof.
  intros Hs. unfold insert_bytes_loop.
  change (fold_left _ (nrange lo hi) b)
    with (fold_left (ins_step (fun o => o) (fun _ => p)) (nrange lo hi) b).
  rewrite (fold_ins_get (fun o => o) (fun _ => p) (nrange lo hi) b o p); auto.
  destruct (existsb _ _) eqn:Ex; ncase ((lo <=? o) && (o <? hi)); auto.
  - apply existsb_exists in Ex as [x [Hx Hxo]]. nbool. apply nrange_In in Hx.
    subst. destruct Hc as [Hc|Hc]; nbool; lia.
  - exfalso. assert (Hin : In o (nrange lo hi)) by (apply nrange_In; lia).
    assert (existsb (fun x => x =? o) (nrange lo hi) = true)
      by (apply existsb_exists; exists o; split; auto; apply N.eqb_refl).
    congruence.
Qed.

Lemma clear_unsplittable (m : PM) r :
  OFFSET_IS_ADDR = false ->
  clear cx r m =
  match range_get_ptrs cx m r with
  | [] => (m, Ok tt)
  | e0 :: rest =>
      let first := fst e0 in
      let last_ := fst (last rest e0) + ps in
      if first <? alloc_start r then (m, Err (PartialPointerOverwrite first))
      else if alloc_end r <? last_ then (m, Err (PartialPointerOverwrite (last_ - ps)))
      else (set_ptrs (SortedMap.remove_range first last_ (ptrs m)) m, Ok tt)
  end.
Proof.
  intros Ho. unfold clear, bind, ret, get_state, throw, modify. rewrite Ho. simpl.
  destruct (range_get_ptrs cx m r) as [|e0 rest]; auto.
  destruct (fst e0 <? alloc_start r); auto.
  destruct (alloc_end r <? _); auto.
Qed.

Lemma range_get_ptrs_In (m : PM) r e0 rest :
  range_get_ptrs cx m r = e0 :: rest ->
  In e0 (ptrs m) /\ In (last rest e0) (ptrs m).
Proof.
  intros HL. split.
  - apply (proj1 (In_range_get_ptrs m r e0)). rewrite HL. left; auto.
  - apply (proj1 (In_range_get_ptrs m r (last rest e0))). rewrite HL. apply last_In.
Qed.

Lemma clear_splittable (m : PM) r :
  OFFSET_IS_ADDR = true -> sorted_store (ptrs m) ->
  clear cx r m =
  let b1 := SortedMap.remove_range (alloc_start r) (alloc_end r) (bytes m) in
  match range_get_ptrs cx m r with
  | [] => (MkProvenanceMap (ptrs m) b1, Ok tt)
  | e0 :: rest =>
      let first := fst e0 in
      let lastk := last rest e0 in
      let last_ := fst lastk + ps in
      let b2 := if first <? alloc_start r
                then insert_bytes_loop first (alloc_start r) (snd e0) b1 else b1 in
      let b3 := if alloc_end r <? last_
                then insert_bytes_loop (alloc_end r) last_ (snd lastk) b2 else b2 in
      (MkProvenanceMap (SortedMap.remove_range first last_ (ptrs m)) b3, Ok tt)
  end.
Proof.
  intros Ho Hs. unfold clear, index_ptrs, bind, ret, get_state, throw, modify, panic.
  rewrite Ho. simpl.
  change (range_get_ptrs cx (set_bytes ?b m) r) with (range_get_ptrs cx m r).
  unfold set_bytes, set_ptrs; simpl.
  destruct (range_get_ptrs cx m r) as [|e0 rest] eqn:HL; auto.
  destruct (range_get_ptrs_In m r e0 rest HL) as [He0 Hlast].
  assert (G0 : SortedMap.get (fst e0) (ptrs m) = Some (snd e0))
    by (apply get_In; auto; destruct e0; auto).
  assert (G1 : SortedMap.get (fst (last rest e0)) (ptrs m) = Some (snd (last rest e0)))
    by (apply get_In; auto; destruct (last rest e0); auto).
  rewrite N.add_sub.
  destruct (fst e0 <? alloc_start r); simpl; rewrite ?G0, ?G1; simpl;
    destruct (alloc_end r <? _); simpl; rewrite ?G1; reflexivity.
Qed.

Lemma range_get_ptrs_sorted (m : PM) r :
  sorted_store (ptrs m) -> StronglySorted klt (range_get_ptrs cx m r).
Proof. intros Hs. apply sorted_range. exact Hs. Qed.

(** The entries returned by a probe lie between its first and last one. *)
Lemma range_get_ptrs_bounds (m : PM) r e0 rest kv :
  sorted_store (ptrs m) -> range_get_ptrs cx m r = e0 :: rest ->
  In kv (range_get_ptrs cx m r) -> fst e0 <= fst kv <= fst (last rest e0).
Proof.
  intros Hs HL Hin. pose proof (range_get_ptrs_sorted m r Hs) as Hss.
  rewrite HL in Hss, Hin. split.
  - destruct Hin as [<-|Hin]; [lia|]. pose proof (SS_head _ _ _ _ Hss Hin). unfold klt in *; lia.
  - destruct (SS_last _ _ _ _ Hss Hin) as [<-|Hlt]; [lia|unfold klt in Hlt; lia].
Qed.

(** Under the spacing invariant, at most one pointer-sized entry covers a byte. *)
Lemma spaced_cover_unique (l : SortedMap.t Prov) a b o :
  spaced cx l -> In a l -> In b l ->
  fst a <= o < fst a + ps -> fst b <= o < fst b + ps -> fst a = fst b.
Proof.
  intros Hsp Ha Hb Hoa Hob.
  destruct (N.lt_trichotomy (fst a) (fst b)) as [Hl|[Heq|Hl]]; auto.
  - specialize (Hsp a b Ha Hb Hl). lia.
  - specialize (Hsp b a Hb Ha Hl). lia.
Qed.

Lemma get_covered (m : PM) k p o :
  sorted_store (ptrs m) -> spaced cx (ptrs m) ->
  In (k, p) (ptrs m) -> k <= o < k + ps -> get cx m o = Some p.
Proof.
  intros Hs Hsp Hin Ho. unfold get.
  assert (HL : range_get_ptrs cx m (alloc_range o 1) = [(k, p)]).
  { apply sorted_single_key.
    - apply range_get_ptrs_sorted; auto.
    - intros y Hy. apply In_range_get_ptrs in Hy as [Hy Hr]. simpl in Hr.
      unfold alloc_end in Hr; simpl in Hr.
      symmetry. apply (spaced_cover_unique (ptrs m) (k, p) y o); simpl; auto; lia.
    - apply In_range_get_ptrs. unfold alloc_end; simpl. split; auto; lia. }
  rewrite HL. reflexivity.
Qed.

Lemma get_uncovered (m : PM) o :
  (forall kv, In kv (ptrs m) -> ~ (fst kv <= o < fst kv + ps)) ->
  get cx m o = SortedMap.get o (bytes m).
Proof.
  intros Hn. unfold get.
  destruct (range_get_ptrs cx m (alloc_range o 1)) as [|e0 rest] eqn:HL; auto.
  exfalso. assert (Hin : In e0 (range_get_ptrs cx m (alloc_range o 1))) by (rewrite HL; left; auto).
  apply In_range_get_ptrs in Hin as [Hin Hr]. unfold alloc_end in Hr; simpl in Hr.
  apply (Hn e0 Hin). lia.
Qed.

(** After [clear] has removed the pointer-sized entries in [[first, last)],
    none of the entries that overlapped the range remain. *)
Lemma clear_removes_overlapping (m : PM) r e0 rest :
  sorted_store (ptrs m) -> range_get_ptrs cx m r = e0 :: rest ->
  range_get_ptrs cx (set_ptrs (SortedMap.remove_range (fst e0) (fst (last rest e0) + ps) (ptrs m)) m) r = [].
Proof.
  intros Hs HL.
  destruct (range_get_ptrs cx (set_ptrs _ m) r) as [|x xs] eqn:HL'; auto. exfalso.
  assert (Hx : In x (range_get_ptrs cx (set_ptrs (SortedMap.remove_range (fst e0) (fst (last rest e0) + ps) (ptrs m)) m) r))
    by (rewrite HL'; left; auto).
  apply In_range_get_ptrs in Hx as [Hx Hr]. simpl in Hx.
  apply In_remove_range in Hx as [Hx Hnot].
  assert (Hx' : In x (range_get_ptrs cx m r)) by (apply In_range_get_ptrs; auto).
  pose proof (range_get_ptrs_bounds m r e0 rest x Hs HL Hx'). lia.
Qed.

Lemma nil_of_no_elem {A} (l : list A) : (forall x, ~ In x l) -> l = [].
Proof. destruct l as [|a l]; auto. intros Hn. exfalso. apply (Hn a). left; auto. Qed.

Lemma clear_splittable_ok (m : PM) r :
  OFFSET_IS_ADDR = true -> sorted_store (ptrs m) -> snd (clear cx r m) = Ok tt.
Proof.
  intros Ho Hs. rewrite clear_splittable by auto. simpl.
  destruct (range_get_ptrs cx m r); reflexivity.
Qed.

Lemma clear_err_unchanged (m : PM) r e :
  sorted_store (ptrs m) -> snd (clear cx r m) = Err e -> fst (clear cx r m) = m.
Proof.
  intros Hs He. destruct OFFSET_IS_ADDR eqn:Ho.
  - rewrite clear_splittable_ok in He by auto. discriminate.
  - rewrite clear_unsplittable in * by auto.
    destruct (range_get_ptrs cx m r) as [|e0 rest]; simpl in *; [discriminate|].
    destruct (fst e0 <? alloc_start r); simpl in *; auto.
    destruct (alloc_end r <? _); simpl in *; auto. discriminate.
Qed.

(** A successful [clear] leaves the range empty, and clearing again changes
    nothing. *)
Lemma clear_ok_cleared (m : PM) r :
  sorted_store (ptrs m) -> bytes_empty_if_unsplittable m ->
  snd (clear cx r m) = Ok tt ->
  range_empty cx (fst (clear cx r m)) r = true /\
  clear cx r (fst (clear cx r m)) = (fst (clear cx r m), Ok tt).
Proof.
  intros Hs Hb Hok. destruct OFFSET_IS_ADDR eqn:Ho.
  - rewrite clear_splittable by auto. cbv zeta.
    destruct (range_get_ptrs cx m r) as [|e0 rest] eqn:HL; simpl.
    + assert (Hb1 : forall kv, In kv (SortedMap.remove_range (alloc_start r) (alloc_end r) (bytes m)) ->
                   ~ (alloc_start r <= fst kv < alloc_end r))
        by (intros kv Hkv; apply In_remove_range in Hkv; tauto).
      split.
      * unfold range_empty.
        change (range_get_ptrs cx (MkProvenanceMap (ptrs m) ?b) r) with (range_get_ptrs cx m r).
        rewrite HL. simpl.
        rewrite (nil_of_no_elem (range_get_bytes _ r)); auto.
        intros x Hx. apply In_range_get_bytes in Hx as [Hx Hr]. simpl in Hx. apply (Hb1 x); auto.
      * rewrite clear_splittable by auto. simpl.
        change (range_get_ptrs cx (MkProvenanceMap (ptrs m) _) r) with (range_get_ptrs cx m r).
        rewrite HL. simpl. rewrite remove_range_noop; auto.
    + set (m1 := MkProvenanceMap _ _).
      assert (Hp1 : range_get_ptrs cx m1 r = [])
        by (apply (clear_removes_overlapping m r e0 rest Hs HL)).
      assert (Hb1 : forall kv, In kv (bytes m1) -> ~ (alloc_start r <= fst kv < alloc_end r)).
      { intros kv Hkv. unfold m1 in Hkv; simpl in Hkv.
        destruct (alloc_end r <? _) eqn:C2; nbool;
          [apply In_loop in Hkv as [Hkv|[Hr _]]; [|lia]|].
        all: destruct (fst e0 <? alloc_start r) eqn:C1; nbool;
          [apply In_loop in Hkv as [Hkv|[Hr _]]; [|lia]|].
        all: apply In_remove_range in Hkv; tauto. }
      assert (Hs1 : sorted_store (ptrs m1)) by (apply sorted_remove_range; auto).
      split.
      * unfold range_empty. rewrite Hp1. simpl.
        rewrite (nil_of_no_elem (range_get_bytes _ r)); auto.
        intros x Hx. apply In_range_get_bytes in Hx as [Hx Hr]. apply (Hb1 x); auto.
      * rewrite (clear_splittable m1 r Ho Hs1). rewrite Hp1. cbv zeta.
        rewrite remove_range_noop; [reflexivity|exact Hb1].
  - assert (Hbe : bytes m = []) by auto.
    rewrite clear_unsplittable in * by auto.
    destruct (range_get_ptrs cx m r) as [|e0 rest] eqn:HL; simpl in *.
    + split.
      * unfold range_empty. rewrite HL. unfold range_get_bytes. rewrite Hbe. reflexivity.
      * rewrite clear_unsplittable, HL by auto. reflexivity.
    + destruct (fst e0 <? alloc_start r); simpl in *; [discriminate|].
      destruct (alloc_end r <? _); simpl in *; [discriminate|].
      pose proof (clear_removes_overlapping m r e0 rest Hs HL) as Hp1.
      split.
      * unfold range_empty. rewrite Hp1. unfold range_get_bytes. simpl. rewrite Hbe. reflexivity.
      * rewrite clear_unsplittable, Hp1 by auto. reflexivity.
Qed.

(** *** The specification's properties *)

(** C3: for non-splittable provenance, [clear] fails with a partial pointer
    overwrite exactly when a pointer-sized entry overlapping the range starts
    before it or ends after it; the error names such an entry, and the map is
    left unchanged. *)
Theorem clear_partial_overwrite (m : PM) r :
  OFFSET_IS_ADDR = false -> sorted_store (ptrs m) ->
  ((exists o, snd (clear cx r m) = Err (PartialPointerOverwrite o)) <->
   exists kv, In kv (ptrs m) /\ fst kv < alloc_end r /\ alloc_start r < fst kv + ps /\
              (fst kv < alloc_start r \/ alloc_end r < fst kv + ps)) /\
  (forall o, snd (clear cx r m) = Err (PartialPointerOverwrite o) ->
     fst (clear cx r m) = m /\
     exists p, In (o, p) (ptrs m) /\ o < alloc_end r /\ alloc_start r < o + ps /\
               (o < alloc_start r \/ alloc_end r < o + ps)).
Proof.
  intros Ho Hs. rewrite clear_unsplittable by auto.
  destruct (range_get_ptrs cx m r) as [|e0 rest] eqn:HL; simpl.
  - split.
    + split; [intros [o Eo]; discriminate|].
      intros [kv [Hin [Hr1 [Hr2 _]]]].
      assert (Hx : In kv (range_get_ptrs cx m r)) by (apply In_range_get_ptrs; tauto).
      rewrite HL in Hx. destruct Hx.
    + intros o Eo; discriminate.
  - destruct (range_get_ptrs_In m r e0 rest HL) as [He0 Hlast].
    assert (Hr0 : In e0 (range_get_ptrs cx m r)) by (rewrite HL; left; auto).
    assert (Hr1 : In (last rest e0) (range_get_ptrs cx m r)) by (rewrite HL; apply last_In).
    apply In_range_get_ptrs in Hr0 as [_ Hr0]. apply In_range_get_ptrs in Hr1 as [_ Hr1].
    destruct (fst e0 <? alloc_start r) eqn:C1; nbool; simpl.
    + split.
      * split; [intros _; exists e0; repeat split; auto; lia|eauto].
      * intros o Eo. inversion Eo; subst. split; auto.
        exists (snd e0). destruct e0; simpl in *. repeat split; auto; lia.
    + destruct (alloc_end r <? fst (last rest e0) + ps) eqn:C2; nbool; simpl.
      * split.
        -- split; [intros _; exists (last rest e0); repeat split; auto; lia|eauto].
        -- intros o Eo. inversion Eo; subst. split; auto.
           exists (snd (last rest e0)). rewrite N.add_sub.
           destruct (last rest e0); simpl in *. repeat split; auto; lia.
      * split.
        -- split; [intros [o Eo]; discriminate|].
           intros [kv [Hin [Hr1' [Hr2' Hbad]]]].
           assert (Hx : In kv (range_get_ptrs cx m r)) by (apply In_range_get_ptrs; tauto).
           pose proof (range_get_ptrs_bounds m r e0 rest kv Hs HL Hx). lia.
        -- intros o Eo; discriminate.
Qed.

(** C4: for non-splittable provenance, [prepare_copy] fails with a partial
    pointer copy exactly when a pointer-sized entry straddles the start or the
    end of the source range (the zero-length probes), naming such an entry.
    [prepare_copy] reads the map and returns a plan, so a failure mutates
    nothing. *)
Theorem prepare_copy_partial_pointer (m : PM) src dest count :
  OFFSET_IS_ADDR = false ->
  ((exists o, prepare_copy cx m src dest count = Err (PartialPointerCopy o)) <->
   exists kv, In kv (ptrs m) /\
     ((fst kv < alloc_start src < fst kv + ps) \/ (fst kv < alloc_end src < fst kv + ps))) /\
  (forall o, prepare_copy cx m src dest count = Err (PartialPointerCopy o) ->
     exists p, In (o, p) (ptrs m) /\
       ((o < alloc_start src < o + ps) \/ (o < alloc_end src < o + ps))).
Proof.
  intros Ho. unfold prepare_copy, copy_bytes. rewrite Ho. simpl.
  destruct (range_get_ptrs cx m (alloc_range (alloc_start src) 0)) as [|e0 r0] eqn:HS.
  - destruct (range_get_ptrs cx m (alloc_range (alloc_end src) 0)) as [|e1 r1] eqn:HE.
    + split; [|intros o Eo; discriminate].
      split; [intros [o Eo]; discriminate|].
      intros [kv [Hin [Hst|Hst]]].
      * assert (Hx : In kv (range_get_ptrs cx m (alloc_range (alloc_start src) 0)))
          by (apply In_range_get_ptrs; unfold alloc_end; simpl; split; auto; lia).
        rewrite HS in Hx; destruct Hx.
      * assert (Hx : In kv (range_get_ptrs cx m (alloc_range (alloc_end src) 0)))
          by (apply In_range_get_ptrs; unfold alloc_end at 1; simpl; split; auto; lia).
        rewrite HE in Hx; destruct Hx.
    + assert (Hx : In e1 (range_get_ptrs cx m (alloc_range (alloc_end src) 0)))
        by (rewrite HE; left; auto).
      apply In_range_get_ptrs in Hx as [Hin Hr]. unfold alloc_end at 1 in Hr; simpl in Hr.
      split.
      * split; [intros _; exists e1; split; auto; right; lia|eauto].
      * intros o Eo. inversion Eo; subst. exists (snd e1). destruct e1; simpl in *.
        split; auto. right; lia.
  - assert (Hx : In e0 (range_get_ptrs cx m (alloc_range (alloc_start src) 0)))
      by (rewrite HS; left; auto).
    apply In_range_get_ptrs in Hx as [Hin Hr]. unfold alloc_end in Hr; simpl in Hr.
    split.
    + split; [intros _; exists e0; split; auto; left; lia|eauto].
    + intros o Eo. inversion Eo; subst. exists (snd e0). destruct e0; simpl in *.
      split; auto. left; lia.
Qed.

(** C6 (as amended): a zero-length probe at [X] sees exactly the
    pointer-sized entries starting in [[X - (ps - 1), X)], the ones crossing
    the boundary between [X - 1] and [X].  Hence, for an entry at [o] with no
    other entry starting in [[o - ps, o)], the probes at [o] and at [o - 1]
    are empty, and the probes strictly inside its span are not. *)
Theorem zero_length_probe (m : PM) o p :
  In (o, p) (ptrs m) ->
  (forall kv, In kv (ptrs m) -> ~ (o - ps <= fst kv < o)) ->
  range_empty cx m (alloc_range o 0) = true /\
  range_empty cx m (alloc_range (o - 1) 0) = true /\
  (forall x, o < x < o + ps -> range_empty cx m (alloc_range x 0) = false) /\
  (forall X, range_empty cx m (alloc_range X 0) = true <->
             forall kv, In kv (ptrs m) -> ~ (X - (ps - 1) <= fst kv < X)).
Proof.
  intros Hin Hno.
  assert (Hgen : forall X, range_empty cx m (alloc_range X 0) = true <->
                 forall kv, In kv (ptrs m) -> ~ (X - (ps - 1) <= fst kv < X)).
  { intros X. unfold range_empty, range_get_bytes. simpl.
    assert (Hb : SortedMap.range X (X + 0) (bytes m) = []).
    { apply nil_of_no_elem. intros x Hx. apply In_range in Hx. lia. }
    unfold alloc_end; simpl. rewrite Hb, andb_true_r.
    destruct (range_get_ptrs cx m (alloc_range X 0)) as [|e0 rest] eqn:HL; simpl.
    - split; auto. intros _ kv Hkv Hr.
      assert (Hx : In kv (range_get_ptrs cx m (alloc_range X 0)))
        by (apply In_range_get_ptrs; unfold alloc_end; simpl; split; auto; lia).
      rewrite HL in Hx; destruct Hx.
    - split; [discriminate|]. intros Hall.
      assert (Hx : In e0 (range_get_ptrs cx m (alloc_range X 0))) by (rewrite HL; left; auto).
      apply In_range_get_ptrs in Hx as [Hx Hr]. unfold alloc_end in Hr; simpl in Hr.
      exfalso. apply (Hall e0 Hx). lia. }
  split; [|split; [|split]]; auto.
  - apply Hgen. intros kv Hkv Hr. apply (Hno kv Hkv). lia.
  - apply Hgen. intros kv Hkv Hr. apply (Hno kv Hkv). lia.
  - intros x Hx. destruct (range_empty cx m (alloc_range x 0)) eqn:E; auto.
    pose proof (proj1 (Hgen x) E (o, p) Hin) as Hc. simpl in Hc. exfalso. apply Hc. lia.
Qed.

(** C7: after [insert_ptr o p] on an empty pointer-sized span, [get]
    returns [p] at every offset of the span [[o, o + ps)]. *)
Theorem insert_ptr_get (m : PM) o p x :
  range_empty cx m (alloc_range o ps) = true -> o <= x < o + ps ->
  get cx (insert_ptr m o p) x = Some p.
Proof.
  intros He Hx. unfold get.
  assert (Hall : forall y, In y (range_get_ptrs cx (insert_ptr m o p) (alloc_range x 1)) -> y = (o, p)).
  { intros y Hy. apply In_range_get_ptrs in Hy as [Hy Hr]. simpl in Hy.
    unfold alloc_end in Hr; simpl in Hr.
    apply In_insert_weak in Hy as [Hy|Hy]; auto. exfalso.
    unfold range_empty in He. apply andb_true_iff in He as [He _].
    destruct (range_get_ptrs cx m (alloc_range o ps)) as [|e0 rest] eqn:HL; [|discriminate].
    assert (Hy' : In y (range_get_ptrs cx m (alloc_range o ps)))
      by (apply In_range_get_ptrs; unfold alloc_end; simpl; split; auto; lia).
    rewrite HL in Hy'; destruct Hy'. }
  assert (Hself : In (o, p) (range_get_ptrs cx (insert_ptr m o p) (alloc_range x 1))).
  { apply In_range_get_ptrs. unfold alloc_end; simpl. split; [apply In_insert_self|lia]. }
  destruct (range_get_ptrs cx (insert_ptr m o p) (alloc_range x 1)) as [|e0 rest]; [destruct Hself|].
  rewrite (Hall e0 (or_introl eq_refl)). reflexivity.
Qed.

(** C8: clearing twice is clearing once; a successful [clear] leaves the
    range empty; with splittable provenance [clear] always succeeds, and when
    it fails (non-splittable provenance) the map is unchanged. *)
Theorem clear_idempotent (m : PM) r :
  sorted_store (ptrs m) -> bytes_empty_if_unsplittable m ->
  fst (clear cx r (fst (clear cx r m))) = fst (clear cx r m) /\
  (snd (clear cx r m) = Ok tt -> range_empty cx (fst (clear cx r m)) r = true) /\
  (OFFSET_IS_ADDR = true -> snd (clear cx r m) = Ok tt) /\
  (forall e, snd (clear cx r m) = Err e -> fst (clear cx r m) = m).
Proof.
  intros Hs Hb.
  assert (Hout : snd (clear cx r m) = Ok tt \/ exists e, snd (clear cx r m) = Err e).
  { destruct OFFSET_IS_ADDR eqn:Ho.
    - left. apply clear_splittable_ok; auto.
    - rewrite clear_unsplittable by auto.
      destruct (range_get_ptrs cx m r) as [|e0 rest]; simpl; auto.
      destruct (fst e0 <? alloc_start r); simpl; eauto.
      destruct (alloc_end r <? _); simpl; eauto. }
  split; [|split; [|split]].
  - destruct Hout as [Hok|[e He]].
    + destruct (clear_ok_cleared m r Hs Hb Hok) as [_ E]. rewrite E. reflexivity.
    + pose proof (clear_err_unchanged m r e Hs He) as E. rewrite E. exact E.
  - intros Hok. apply (clear_ok_cleared m r Hs Hb Hok).
  - intros Ho. apply clear_splittable_ok; auto.
  - intros e He. apply (clear_err_unchanged m r e Hs He).
Qed.

Lemma spaced_sub (l l' : SortedMap.t Prov) :
  spaced cx l -> (forall x, In x l' -> In x l) -> spaced cx l'.
Proof. intros Hsp Hsub a b Ha Hb Hlt. apply Hsp; auto. Qed.

Lemma cover_dec (l : SortedMap.t Prov) o :
  (exists kv, In kv l /\ fst kv <= o < fst kv + ps) \/
  (forall kv, In kv l -> ~ (fst kv <= o < fst kv + ps)).
Proof.
  induction l as [|a l [[kv [Hin Hc]]|Hn]]; simpl.
  - right; tauto.
  - left; eauto.
  - destruct ((fst a <=? o) && (o <? fst a + ps)) eqn:C; nbool.
    + left; eauto.
    + right. intros kv [<-|Hkv]; [destruct C as [C|C]; nbool; lia|auto].
Qed.

(** The byte-wise part computed by a splittable [clear], read at one offset. *)
Lemma get_clear_bytes (b : SortedMap.t Prov) s e first last_ p1 p2 o :
  StronglySorted klt b ->
  SortedMap.get o
    (if e <? last_
     then insert_bytes_loop e last_ p2
            (if first <? s then insert_bytes_loop first s p1 (SortedMap.remove_range s e b)
             else SortedMap.remove_range s e b)
     else if first <? s then insert_bytes_loop first s p1 (SortedMap.remove_range s e b)
          else SortedMap.remove_range s e b) =
  if (e <? last_) && ((e <=? o) && (o <? last_)) then Some p2
  else if (first <? s) && ((first <=? o) && (o <? s)) then Some p1
  else if SortedMap.in_range s e o then None else SortedMap.get o b.
Proof.
  intros Hs.
  assert (Hs1 : StronglySorted klt (SortedMap.remove_range s e b)) by (apply sorted_remove_range; auto).
  assert (Hs2 : StronglySorted klt (insert_bytes_loop first s p1 (SortedMap.remove_range s e b)))
    by (apply sorted_loop; auto).
  destruct (e <? last_); destruct (first <? s); simpl;
    rewrite ?get_loop by auto; rewrite ?get_loop by auto; rewrite ?get_remove_range;
    reflexivity.
Qed.

(** C9: clearing a zero-length range [[X, X)] acts on the pointer-sized entry
    crossing the boundary before [X], if any: non-splittable provenance
    fails with a partial pointer overwrite naming it; splittable provenance
    removes it and puts byte-wise entries of its provenance on its whole
    span.  Without such an entry the map is unchanged. *)
Theorem clear_zero_length (m : PM) X :
  wf cx m ->
  ((forall kv, In kv (ptrs m) -> ~ (fst kv < X < fst kv + ps)) ->
   clear cx (alloc_range X 0) m = (m, Ok tt)) /\
  (forall k p, In (k, p) (ptrs m) -> k < X < k + ps ->
     (OFFSET_IS_ADDR = false ->
      clear cx (alloc_range X 0) m = (m, Err (PartialPointerOverwrite k))) /\
     (OFFSET_IS_ADDR = true ->
      snd (clear cx (alloc_range X 0) m) = Ok tt /\
      (forall kv, In kv (ptrs (fst (clear cx (alloc_range X 0) m))) <->
                  In kv (ptrs m) /\ fst kv <> k) /\
      (forall o, SortedMap.get o (bytes (fst (clear cx (alloc_range X 0) m))) =
                 if (k <=? o) && (o <? k + ps) then Some p
                 else SortedMap.get o (bytes m)))).
Proof.
  intros (Hsp & Hsb & Hspc & Hout & Hemp).
  split.
  - intros Hn.
    assert (HL : range_get_ptrs cx m (alloc_range X 0) = []).
    { apply nil_of_no_elem. intros x Hx. apply In_range_get_ptrs in Hx as [Hx Hr].
      unfold alloc_end in Hr; simpl in Hr. apply (Hn x Hx). lia. }
    destruct OFFSET_IS_ADDR eqn:Ho.
    + rewrite clear_splittable by auto. rewrite HL. cbv zeta.
      rewrite remove_range_noop.
      * destruct m; reflexivity.
      * intros kv _. unfold alloc_end; simpl. lia.
    + rewrite clear_unsplittable, HL by auto. reflexivity.
  - intros k p Hin Hk.
    assert (HL : range_get_ptrs cx m (alloc_range X 0) = [(k, p)]).
    { apply sorted_single_key.
      - apply range_get_ptrs_sorted; auto.
      - intros y Hy. apply In_range_get_ptrs in Hy as [Hy Hr].
        unfold alloc_end in Hr; simpl in Hr.
        apply (spaced_cover_unique (ptrs m) y (k, p) (X - 1)); simpl; auto; lia.
      - apply In_range_get_ptrs. unfold alloc_end; simpl. split; auto; lia. }
    split.
    + intros Ho. rewrite clear_unsplittable, HL by auto. simpl.
      destruct (k <? X) eqn:C; nbool; [reflexivity|lia].
    + intros Ho. rewrite clear_splittable by auto. rewrite HL. cbv zeta. simpl.
      split; [reflexivity|split].
      * intros kv. rewrite In_remove_range. split.
        -- intros [Hkv Hr]. split; auto. lia.
        -- intros [Hkv Hne]. split; auto. intros Hr.
           destruct (N.lt_trichotomy k (fst kv)) as [Hl|[Heq|Hl]]; [|lia|].
           ++ specialize (Hspc (k, p) kv Hin Hkv Hl). simpl in Hspc. lia.
           ++ lia.
      * intros o. rewrite get_clear_bytes by auto.
        unfold alloc_end; simpl.
        destruct (k <? X) eqn:C1; nbool; [|lia].
        destruct (X + 0 <? k + ps) eqn:C2; nbool; [|lia].
        simpl. unfold SortedMap.in_range.
        destruct (X + 0 <=? o) eqn:C3; destruct (o <? k + ps) eqn:C4;
          destruct (k <=? o) eqn:C5; destruct (o <? X) eqn:C6; simpl; nbool;
          try reflexivity; try lia.
        all: destruct (X <=? o) eqn:C7; destruct (o <? X + 0) eqn:C8; simpl; nbool;
          try reflexivity; try lia.
Qed.

(** C10: with splittable provenance, a successful [clear r] keeps [get] at
    every offset outside [r]: the parts of partially cleared pointers
    outside [r] become byte-wise entries of the same provenance. *)
Theorem clear_preserves_get_outside (m : PM) r o :
  OFFSET_IS_ADDR = true -> wf cx m -> snd (clear cx r m) = Ok tt ->
  (o < alloc_start r \/ alloc_end r <= o) ->
  get cx (fst (clear cx r m)) o = get cx m o.
Proof.
  intros Ho (Hsp & Hsb & Hspc & Hout & Hemp) _ Hor.
  rewrite clear_splittable by auto. cbv zeta.
  destruct (range_get_ptrs cx m r) as [|e0 rest] eqn:HL; simpl fst.
  - destruct (cover_dec (ptrs m) o) as [[[k p] [Hin Hc]]|Hn].
    + rewrite (get_covered m k p o), (get_covered (MkProvenanceMap (ptrs m) _) k p o); auto.
    + rewrite (get_uncovered m o), (get_uncovered (MkProvenanceMap (ptrs m) _) o); auto. simpl.
      rewrite get_remove_range. unfold SortedMap.in_range.
      destruct (alloc_start r <=? o) eqn:C1; destruct (o <? alloc_end r) eqn:C2; simpl; nbool;
        auto; lia.
  - set (lastk := last rest e0).
    destruct (range_get_ptrs_In m r e0 rest HL) as [He0 Hlast].
    assert (Hr0 : In e0 (range_get_ptrs cx m r)) by (rewrite HL; left; auto).
    assert (Hr1 : In lastk (range_get_ptrs cx m r)) by (rewrite HL; apply last_In).
    pose proof Hr0 as Hr0'. pose proof Hr1 as Hr1'.
    apply In_range_get_ptrs in Hr0' as [_ Hb0]. apply In_range_get_ptrs in Hr1' as [_ Hb1].
    set (m' := MkProvenanceMap _ _).
    assert (Hsub : forall x, In x (ptrs m') -> In x (ptrs m) /\ ~ (fst e0 <= fst x < fst lastk + ps))
      by (intros x Hx; apply In_remove_range in Hx; auto).
    assert (Hsp' : sorted_store (ptrs m')) by (apply sorted_remove_range; auto).
    assert (Hspc' : spaced cx (ptrs m'))
      by (apply (spaced_sub (ptrs m)); auto; intros x Hx; apply Hsub; auto).
    unfold alloc_end in *.
    destruct (cover_dec (ptrs m) o) as [[[k p] [Hin Hc]]|Hn]; try simpl in Hc.
    + rewrite (get_covered m k p o) by auto.
      destruct ((fst e0 <=? k) && (k <? fst lastk + ps)) eqn:Ck; nbool.
      * (* the covering pointer was removed by [clear] *)
        assert (Hkl : k <= fst lastk).
        { destruct (N.le_gt_cases k (fst lastk)) as [Hle|Hgt]; auto.
          specialize (Hspc lastk (k, p) Hlast Hin Hgt). simpl in Hspc. lia. }
        assert (Hkr : In (k, p) (range_get_ptrs cx m r))
          by (apply In_range_get_ptrs; unfold alloc_end; simpl; split; auto; lia).
        pose proof (range_get_ptrs_bounds m r e0 rest (k, p) Hsp HL Hkr) as Hbd. simpl in Hbd.
        assert (Hunc : forall kv, In kv (ptrs m') -> ~ (fst kv <= o < fst kv + ps)).
        { intros kv Hkv Hc'. destruct (Hsub kv Hkv) as [Hkv' Hnot].
          pose proof (spaced_cover_unique (ptrs m) kv (k, p) o Hspc Hkv' Hin Hc' Hc).
          simpl in *. lia. }
        rewrite (get_uncovered m' o Hunc). unfold m'. simpl bytes.
        rewrite get_clear_bytes by auto.
        destruct Hor as [Hlo|Hhi].
        -- (* [o] before the range: the covering pointer is the first one *)
           assert (Hk0 : k = fst e0).
           { destruct (N.eq_dec k (fst e0)) as [E|Hne]; auto.
             assert (Hlt : fst e0 < k) by lia.
             specialize (Hspc e0 (k, p) He0 Hin Hlt). simpl in Hspc. lia. }
           assert (Hp : p = snd e0).
           { apply (sorted_key_unique k p (snd e0) (ptrs m)); auto.
             rewrite Hk0. destruct e0; auto. }
           destruct (alloc_start r + alloc_size r <? fst lastk + ps) eqn:C1;
             destruct (fst e0 <? alloc_start r) eqn:C2; simpl; nbool;
             destruct (alloc_start r + alloc_size r <=? o) eqn:C3;
             destruct (o <? fst lastk + ps) eqn:C4;
             destruct (fst e0 <=? o) eqn:C5; destruct (o <? alloc_start r) eqn:C6;
             simpl; nbool; subst; auto; lia.
        -- (* [o] after the range: the covering pointer is the last one *)
           assert (Hk1 : k = fst lastk).
           { destruct (N.eq_dec k (fst lastk)) as [E|Hne]; auto.
             assert (Hlt : k < fst lastk) by lia.
             specialize (Hspc (k, p) lastk Hin Hlast Hlt). simpl in Hspc. lia. }
           assert (Hp : p = snd lastk).
           { apply (sorted_key_unique k p (snd lastk) (ptrs m)); auto.
             rewrite Hk1, <- surjective_pairing. exact Hlast. }
           destruct (alloc_start r + alloc_size r <? fst lastk + ps) eqn:C1; simpl; nbool;
             [|lia].
           destruct (alloc_start r + alloc_size r <=? o) eqn:C3;
             destruct (o <? fst lastk + ps) eqn:C4; simpl; nbool; subst; auto; lia.
      * (* the covering pointer is still there *)
        assert (Hin' : In (k, p) (ptrs m')).
        { apply In_remove_range. split; auto. simpl. destruct Ck as [Ck|Ck]; nbool; lia. }
        apply (get_covered m' k p o); auto.
    + assert (Hunc : forall kv, In kv (ptrs m') -> ~ (fst kv <= o < fst kv + ps))
        by (intros kv Hkv; apply Hn; apply Hsub; auto).
      rewrite (get_uncovered m' o Hunc), (get_uncovered m o Hn). unfold m'. simpl bytes.
      rewrite get_clear_bytes by auto.
      pose proof (Hn e0 He0) as N0. pose proof (Hn lastk Hlast) as N1.
      unfold SortedMap.in_range.
      destruct (alloc_start r + alloc_size r <? fst lastk + ps) eqn:C1;
        destruct (fst e0 <? alloc_start r) eqn:C2; simpl; nbool;
        destruct (alloc_start r + alloc_size r <=? o) eqn:C3;
        destruct (o <? fst lastk + ps) eqn:C4;
        destruct (fst e0 <=? o) eqn:C5; destruct (o <? alloc_start r) eqn:C6;
        destruct (alloc_start r <=? o) eqn:C7; destruct (o <? alloc_start r + alloc_size r) eqn:C8;
        simpl; nbool; auto; lia.
Qed.


(** *** The copy planner *)

Lemma copy_ptrs_In (m : PM) src kv :
  In kv (copy_ptrs cx m src) ->
  In kv (ptrs m) /\ alloc_start src <= fst kv /\ fst kv + ps <= alloc_end src.
Proof.
  unfold copy_ptrs. ncase (alloc_size src <? ps); [intros []|].
  rewrite In_range. intros [Hin Hr]. unfold alloc_end in *. split; auto; lia.
Qed.

Lemma copy_ptrs_sorted (m : PM) src :
  sorted_store (ptrs m) -> StronglySorted klt (copy_ptrs cx m src).
Proof.
  intros Hs. unfold copy_ptrs. destruct (alloc_size src <? ps); [constructor|].
  apply sorted_range. exact Hs.
Qed.

Lemma push_end_fragment_spec offs entry s0 (bs bs' : list (N * Prov)) :
  push_end_fragment offs entry s0 bs = Ok bs' -> StronglySorted klt bs ->
  StronglySorted klt bs' /\
  (forall x, In x bs' -> In x bs \/ (In (fst x) offs /\ snd x = snd entry)).
Proof.
  revert bs; induction offs as [|o offs IH]; simpl; intros bs E Hs.
  - inversion E; subst. auto.
  - assert (Hpush : forall bs0, StronglySorted klt bs0 ->
              push_end_fragment offs entry s0 bs0 = Ok bs' ->
              (forall x, In x bs0 -> In x bs \/ (In (fst x) (o :: offs) /\ snd x = snd entry)) ->
              StronglySorted klt bs' /\
              (forall x, In x bs' -> In x bs \/ (In (fst x) (o :: offs) /\ snd x = snd entry))).
    { intros bs0 Hs0 E0 Hsub. destruct (IH bs0 E0 Hs0) as [Hs' Hin']. split; auto.
      intros x Hx. destruct (Hin' x Hx) as [Hx'|[Hx' Hp]]; auto. right; simpl; auto. }
    destruct (last_opt bs) as [be|] eqn:Hl; [ncase (fst be <? o)|].
    + apply (Hpush (bs ++ [(o, snd entry)])); auto.
      * apply SS_app; auto; [repeat constructor|].
        intros x y Hx [<-|[]]. unfold klt; simpl.
        destruct (last_opt_max klt bs be x Hs Hl Hx) as [->|Hlt]; unfold klt in *; lia.
      * intros x Hx. apply in_app_or in Hx as [Hx|[<-|[]]]; auto. right; simpl; auto.
    + ncase (fst entry <=? s0); [|discriminate]. apply (Hpush bs); auto.
    + apply last_opt_none in Hl; subst bs.
      apply (Hpush ([] ++ [(o, snd entry)])); [simpl; repeat constructor|exact E|].
      intros x [<-|[]]. right; simpl; auto.
Qed.

Lemma copy_mid_spec (m : PM) src (sp : list (N * Prov)) :
  wf cx m -> StronglySorted klt sp ->
  (forall x, In x sp -> alloc_start src <= fst x < alloc_end src) ->
  (forall x a, In x sp -> In a (ptrs m) -> alloc_start src <= fst a -> fst x < fst a) ->
  (forall x y, In x sp -> In y (bytes m) -> alloc_start src <= fst y -> fst x < fst y) ->
  let bs := sp ++ SortedMap.range (alloc_start src) (alloc_end src) (bytes m) in
  StronglySorted klt bs /\
  (forall b, In b bs -> alloc_start src <= fst b < alloc_end src) /\
  (forall b a, In b bs -> In a (ptrs m) -> alloc_start src <= fst a ->
     ~ (fst a <= fst b < fst a + ps)).
Proof.
  intros [Hsp [Hsb [Hspc [Hout Hemp]]]] H1 H2 H3 H4 bs. subst bs. split; [|split].
  - apply SS_app; auto; [apply sorted_range; exact Hsb|].
    intros x y Hx Hy. apply In_range in Hy as [Hy Hr]. unfold klt. apply (H4 x y); auto; lia.
  - intros b Hb. apply in_app_or in Hb as [Hb|Hb]; auto. apply In_range in Hb; tauto.
  - intros b a Hb Ha Hsa. apply in_app_or in Hb as [Hb|Hb].
    + specialize (H3 b a Hb Ha Hsa). lia.
    + apply In_range in Hb as [Hb _]. exact (Hout a b Ha Hb).
Qed.

Lemma copy_start_spec (m : PM) src e0 :
  wf cx m -> In e0 (range_get_ptrs cx m (alloc_range (alloc_start src) 0)) ->
  let sp := map (fun o => (o, snd e0))
                (nrange (alloc_start src) (N.min (fst e0 + ps) (alloc_end src))) in
  StronglySorted klt sp /\
  (forall x, In x sp -> alloc_start src <= fst x < alloc_end src) /\
  (forall x a, In x sp -> In a (ptrs m) -> alloc_start src <= fst a -> fst x < fst a) /\
  (forall x y, In x sp -> In y (bytes m) -> alloc_start src <= fst y -> fst x < fst y).
Proof.
  intros [Hsp [Hsb [Hspc [Hout Hemp]]]] He0 sp.
  apply In_range_get_ptrs in He0 as [He0 [Hl Hr]]. unfold alloc_end, alloc_range in *; simpl in *.
  assert (Hsp' : forall x, In x sp ->
            alloc_start src <= fst x /\ fst x < fst e0 + ps /\
            fst x < alloc_start src + alloc_size src).
  { intros x Hx. apply in_map_iff in Hx as [o [<- Ho]]. apply nrange_In in Ho. simpl. lia. }
  split; [|split; [|split]].
  - apply (SS_map N.lt); [intros x y _ _ Hxy; unfold klt; simpl; lia|apply nrange_sorted].
  - intros x Hx. specialize (Hsp' x Hx). lia.
  - intros x a Hx Ha Hsa. specialize (Hsp' x Hx).
    assert (Hlt : fst e0 < fst a) by lia. specialize (Hspc e0 a He0 Ha Hlt). lia.
  - intros x y Hx Hy Hsy. specialize (Hsp' x Hx). specialize (Hout e0 y He0 Hy). lia.
Qed.

Lemma copy_end_spec (m : PM) src e1 (mid bs : list (N * Prov)) :
  wf cx m -> In e1 (range_get_ptrs cx m (alloc_range (alloc_end src) 0)) ->
  StronglySorted klt mid ->
  (forall b, In b mid -> alloc_start src <= fst b < alloc_end src) ->
  (forall b a, In b mid -> In a (ptrs m) -> alloc_start src <= fst a ->
     fst a + ps <= alloc_end src -> ~ (fst a <= fst b < fst a + ps)) ->
  push_end_fragment (nrange (N.max (fst e1) (alloc_start src)) (alloc_end src)) e1
                    (alloc_start src) mid = Ok bs ->
  StronglySorted klt bs /\
  (forall b, In b bs -> alloc_start src <= fst b < alloc_end src) /\
  (forall b a, In b bs -> In a (ptrs m) -> alloc_start src <= fst a ->
     fst a + ps <= alloc_end src -> ~ (fst a <= fst b < fst a + ps)).
Proof.
  intros [Hsp [Hsb [Hspc [Hout Hemp]]]] He1 H1 H2 H3 E.
  apply In_range_get_ptrs in He1 as [He1 [Hl Hr]].
  destruct (push_end_fragment_spec _ _ _ _ _ E H1) as [Hs' Hin'].
  unfold alloc_range in Hl, Hr; simpl in Hl, Hr. unfold alloc_end in *; simpl in *.
  split; [exact Hs'|split].
  - intros b Hb. destruct (Hin' b Hb) as [Hb'|[Hb' _]]; auto. apply nrange_In in Hb'. lia.
  - intros b a Hb Ha Hsa Hea. destruct (Hin' b Hb) as [Hb'|[Hb' _]]; [apply H3; auto|].
    apply nrange_In in Hb'.
    assert (Hlt : fst a < fst e1) by lia. specialize (Hspc a e1 Ha He1 Hlt). lia.
Qed.


Lemma copy_bytes_spec (m : PM) src bs :
  wf cx m -> copy_bytes cx m src = Ok bs ->
  StronglySorted klt bs /\
  (forall b, In b bs -> alloc_start src <= fst b < alloc_end src) /\
  (forall b a, In b bs -> In a (ptrs m) -> alloc_start src <= fst a ->
     fst a + ps <= alloc_end src -> ~ (fst a <= fst b < fst a + ps)) /\
  (OFFSET_IS_ADDR = false -> bs = []).
Proof.
  intros Hwf E. unfold copy_bytes in E.
  destruct OFFSET_IS_ADDR eqn:Ho;
  destruct (range_get_ptrs cx m (alloc_range (alloc_start src) 0)) as [|e0 r0] eqn:HS;
  destruct (range_get_ptrs cx m (alloc_range (alloc_end src) 0)) as [|e1 r1] eqn:HE;
  cbn -[range_get_ptrs nrange SortedMap.range N.min N.max push_end_fragment] in E;
  try discriminate.
  - injection E as <-.
    destruct (copy_mid_spec m src [] Hwf (SSorted_nil _) (fun x Hx => match Hx with end)
                (fun x a Hx => match Hx with end) (fun x y Hx => match Hx with end))
      as [A1 [A2 A3]].
    refine (conj A1 (conj A2 (conj (fun b a Hb Ha Hsa _ => A3 b a Hb Ha Hsa) _))).
    discriminate.
  - destruct (copy_mid_spec m src [] Hwf (SSorted_nil _) (fun x Hx => match Hx with end)
                (fun x a Hx => match Hx with end) (fun x y Hx => match Hx with end))
      as [A1 [A2 A3]].
    assert (He1 : In e1 (range_get_ptrs cx m (alloc_range (alloc_end src) 0)))
      by (rewrite HE; left; reflexivity).
    destruct (copy_end_spec m src e1 _ bs Hwf He1 A1 A2
                (fun b a Hb Ha Hsa _ => A3 b a Hb Ha Hsa) E) as [B1 [B2 B3]].
    refine (conj B1 (conj B2 (conj B3 _))). discriminate.
  - injection E as <-.
    assert (He0 : In e0 (range_get_ptrs cx m (alloc_range (alloc_start src) 0)))
      by (rewrite HS; left; reflexivity).
    destruct (copy_start_spec m src e0 Hwf He0) as [S1 [S2 [S3 S4]]].
    destruct (copy_mid_spec m src _ Hwf S1 S2 S3 S4) as [A1 [A2 A3]].
    refine (conj A1 (conj A2 (conj (fun b a Hb Ha Hsa _ => A3 b a Hb Ha Hsa) _))).
    discriminate.
  - assert (He0 : In e0 (range_get_ptrs cx m (alloc_range (alloc_start src) 0)))
      by (rewrite HS; left; reflexivity).
    destruct (copy_start_spec m src e0 Hwf He0) as [S1 [S2 [S3 S4]]].
    destruct (copy_mid_spec m src _ Hwf S1 S2 S3 S4) as [A1 [A2 A3]].
    assert (He1 : In e1 (range_get_ptrs cx m (alloc_range (alloc_end src) 0)))
      by (rewrite HE; left; reflexivity).
    destruct (copy_end_spec m src e1 _ bs Hwf He1 A1 A2
                (fun b a Hb Ha Hsa _ => A3 b a Hb Ha Hsa) E) as [B1 [B2 B3]].
    refine (conj B1 (conj B2 (conj B3 _))). discriminate.
  - injection E as <-. split; [constructor|]. split; [intros b []|].
    split; [intros b a []|]. reflexivity.
Qed.


Lemma In_repeat_shifted src dest count (l : list (N * Prov)) kv :
  In kv (repeat_shifted src dest count l) <->
  exists i kv0, i < count /\ In kv0 l /\
                kv = (shift_offset src dest i (fst kv0), snd kv0).
Proof.
  unfold repeat_shifted. rewrite in_flat_map. split.
  - intros [i [Hi Hkv]]. apply nrange_In in Hi. apply in_map_iff in Hkv as [kv0 [<- H0]].
    exists i, kv0. split; [lia|split; auto].
  - intros [i [kv0 [Hi [H0 ->]]]]. exists i. split; [apply nrange_In; lia|].
    apply in_map_iff. exists kv0. auto.
Qed.

(** Repetition [i] lands in the window [dest + size * i, dest + size * (i + 1)). *)
Lemma shift_window src dest i o :
  alloc_start src <= o < alloc_end src ->
  dest + alloc_size src * i <= shift_offset src dest i o /\
  shift_offset src dest i o < dest + alloc_size src * i + alloc_size src.
Proof. unfold shift_offset, alloc_end. lia. Qed.

Lemma window_le (z i j : N) : i < j -> z * i + z <= z * j.
Proof. intros Hij. nia. Qed.

Lemma SS_repeat_shifted src dest count (l : list (N * Prov)) :
  StronglySorted klt l -> (forall kv, In kv l -> alloc_start src <= fst kv < alloc_end src) ->
  StronglySorted klt (repeat_shifted src dest count l).
Proof.
  intros Hs Hb. unfold repeat_shifted.
  apply (SS_flat_map N.lt); [apply nrange_sorted| |].
  - intros i _. apply (SS_map klt); auto.
    intros x y Hx Hy Hxy. pose proof (Hb x Hx). pose proof (Hb y Hy).
    unfold klt, shift_offset in *; simpl. lia.
  - intros i j x y _ _ Hij Hx Hy.
    apply in_map_iff in Hx as [x0 [<- Hx0]]. apply in_map_iff in Hy as [y0 [<- Hy0]].
    unfold klt; simpl.
    pose proof (shift_window src dest i (fst x0) (Hb _ Hx0)).
    pose proof (shift_window src dest j (fst y0) (Hb _ Hy0)).
    pose proof (window_le (alloc_size src) i j Hij). lia.
Qed.

(** C2: for a map satisfying the invariants, a successful [prepare_copy]
    returns [dest_ptrs] and [dest_bytes] whose offsets are strictly increasing
    over all repetitions, hence free of duplicates: both meet the presorted
    bulk-insert precondition of the sorted store. *)
Theorem prepare_copy_sorted (m : PM) src dest count c :
  wf cx m -> prepare_copy cx m src dest count = Ok c ->
  StronglySorted key_lt (dest_ptrs c) /\ NoDup (map fst (dest_ptrs c)) /\
  StronglySorted key_lt (dest_bytes c) /\ NoDup (map fst (dest_bytes c)).
Proof.
  intros Hwf E. unfold prepare_copy in E.
  destruct (copy_bytes cx m src) as [bs|e|] eqn:Hb; try discriminate.
  injection E as <-. simpl.
  destruct (copy_bytes_spec m src bs Hwf Hb) as [B1 [B2 _]].
  destruct Hwf as [Hsp _].
  assert (P : StronglySorted klt (repeat_shifted src dest count (copy_ptrs cx m src))).
  { apply SS_repeat_shifted; [apply copy_ptrs_sorted; exact Hsp|].
    intros kv Hkv. destruct (copy_ptrs_In m src kv Hkv) as [_ [? ?]]. lia. }
  assert (Q : StronglySorted klt (repeat_shifted src dest count bs))
    by (apply SS_repeat_shifted; auto).
  split; [exact P|split; [apply SS_NoDup_keys; exact P|]].
  split; [exact Q|apply SS_NoDup_keys; exact Q].
Qed.


(** *** Preservation of the invariants *)

Lemma range_empty_true (m : PM) r :
  range_empty cx m r = true ->
  (forall a, In a (ptrs m) -> ~ (fst a < alloc_end r /\ alloc_start r < fst a + ps)) /\
  (forall b, In b (bytes m) -> ~ (alloc_start r <= fst b < alloc_end r)).
Proof.
  unfold range_empty. rewrite andb_true_iff. intros [E1 E2]. split.
  - intros a Ha Hc.
    assert (Hin : In a (range_get_ptrs cx m r)) by (apply In_range_get_ptrs; tauto).
    destruct (range_get_ptrs cx m r); [destruct Hin|discriminate].
  - intros b Hb Hc.
    assert (Hin : In b (range_get_bytes m r)) by (apply In_range_get_bytes; tauto).
    destruct (range_get_bytes m r); [destruct Hin|discriminate].
Qed.

Lemma wf_new : wf cx new.
Proof.
  split; [constructor|split; [constructor|split; [|split]]].
  - intros a b [].
  - intros a b [].
  - intros _. reflexivity.
Qed.

Lemma wf_presorted (l : list (N * Prov)) :
  sorted_store l -> spaced cx l -> wf cx (from_presorted_ptrs l).
Proof.
  intros Hs Hsp. split; [exact Hs|split; [constructor|split; [exact Hsp|split]]].
  - intros a b _ [].
  - intros _. reflexivity.
Qed.

Lemma wf_insert_ptr (m : PM) o p :
  wf cx m -> range_empty cx m (alloc_range o ps) = true -> wf cx (insert_ptr m o p).
Proof.
  intros [Hs [Hsb [Hsp [Hout Hemp]]]] He.
  apply range_empty_true in He as [Hnp Hnb]. unfold alloc_end in *; simpl in *.
  assert (Hin : forall kv, In kv (ptrs (insert_ptr m o p)) ->
                kv = (o, p) \/ (In kv (ptrs m) /\ fst kv <> o))
    by (intros kv; simpl; apply In_insert; exact Hs).
  split; [apply sorted_insert; exact Hs|split; [exact Hsb|split; [|split]]].
  - intros a b Ha Hb Hlt.
    destruct (Hin a Ha) as [->|[Ha' _]]; destruct (Hin b Hb) as [->|[Hb' _]];
      simpl in *; try lia.
    + specialize (Hnp b Hb'). lia.
    + specialize (Hnp a Ha'). lia.
    + apply Hsp; auto.
  - intros a b Ha Hb. destruct (Hin a Ha) as [->|[Ha' _]]; simpl.
    + apply Hnb; exact Hb.
    + apply Hout; auto.
  - exact Hemp.
Qed.

Lemma wf_clear (m : PM) r : wf cx m -> wf cx (fst (clear cx r m)).
Proof.
  intros Hwf. pose proof Hwf as [Hs [Hsb [Hsp [Hout Hemp]]]].
  destruct OFFSET_IS_ADDR eqn:Ho.
  - rewrite clear_splittable by auto. cbv zeta.
    destruct (range_get_ptrs cx m r) as [|e0 rest] eqn:HL; simpl.
    + split; [exact Hs|split; [apply sorted_remove_range; exact Hsb|split; [exact Hsp|split]]].
      * intros a b Ha Hb. apply In_remove_range in Hb as [Hb _]. apply Hout; auto.
      * simpl. congruence.
    + destruct (range_get_ptrs_In m r e0 rest HL) as [He0 Hlast].
      assert (Hlk : In (last rest e0) (range_get_ptrs cx m r)) by (rewrite HL; apply last_In).
      pose proof (range_get_ptrs_bounds m r e0 rest _ Hs HL Hlk) as Hbd.
      pose proof (proj1 (In_range_get_ptrs m r _) Hlk) as [_ [Hl1 Hl2]].
      assert (He0r : In e0 (range_get_ptrs cx m r)) by (rewrite HL; left; reflexivity).
      pose proof (proj1 (In_range_get_ptrs m r _) He0r) as [_ [He1 He2]].
      split; [apply sorted_remove_range; exact Hs|split; [|split; [|split]]].
      * assert (Hs1 := sorted_remove_range (alloc_start r) (alloc_end r) (bytes m) Hsb).
        destruct (fst e0 <? alloc_start r); destruct (alloc_end r <? _);
          repeat apply sorted_loop; exact Hs1.
      * apply (spaced_sub (ptrs m)); auto. intros x Hx. apply In_remove_range in Hx; tauto.
      * intros a b Ha Hb. simpl in Ha. apply In_remove_range in Ha as [Ha Hna].
        assert (Hb' : In b (SortedMap.remove_range (alloc_start r) (alloc_end r) (bytes m)) \/
                      (fst e0 <= fst b < alloc_start r) \/
                      (alloc_end r <= fst b < fst (last rest e0) + ps)).
        { destruct (fst e0 <? alloc_start r) eqn:C1; destruct (alloc_end r <? _) eqn:C2;
            cbv beta iota in Hb; cbn [bytes] in Hb;
            repeat match goal with
            | Hx : In b (insert_bytes_loop _ _ _ _) |- _ =>
                apply In_loop in Hx as [Hx|[Hx _]]
            end; tauto. }
        destruct Hb' as [Hb'|[Hb'|Hb']].
        -- apply In_remove_range in Hb' as [Hb' _]. apply Hout; auto.
        -- intros Hc. destruct (N.lt_ge_cases (fst a) (fst e0)) as [Hlt|Hge].
           ++ specialize (Hsp a e0 Ha He0 Hlt). lia.
           ++ apply Hna. split; [lia|]. lia.
        -- intros Hc. destruct (N.lt_ge_cases (fst a) (fst e0)) as [Hlt|Hge].
           ++ specialize (Hsp a e0 Ha He0 Hlt). lia.
           ++ apply Hna. split; [lia|]. lia.
      * simpl. congruence.
  - rewrite clear_unsplittable by auto. cbv zeta.
    destruct (range_get_ptrs cx m r) as [|e0 rest]; [exact Hwf|].
    destruct (fst e0 <? alloc_start r); [exact Hwf|].
    destruct (alloc_end r <? _); [exact Hwf|]. simpl.
    split; [apply sorted_remove_range; exact Hs|split; [exact Hsb|split; [|split]]].
    + apply (spaced_sub (ptrs m)); auto. intros x Hx. apply In_remove_range in Hx; tauto.
    + intros a b Ha Hb. simpl in Ha. apply In_remove_range in Ha as [Ha _]. apply Hout; auto.
    + exact Hemp.
Qed.


Lemma repeat_shifted_nil src dest count :
  repeat_shifted src dest count ([] : list (N * Prov)) = [].
Proof.
  apply nil_of_no_elem. intros kv Hkv.
  apply In_repeat_shifted in Hkv as [i [kv0 [_ [[] _]]]].
Qed.

(** Where the entries planned by [prepare_copy] land: inside the destination
    range, pointer-sized ones a pointer size apart, and byte-wise ones
    outside their spans. *)
Lemma prepare_copy_layout (s : PM) src dest count c :
  wf cx s -> prepare_copy cx s src dest count = Ok c ->
  (forall a, In a (dest_ptrs c) ->
     dest <= fst a /\ fst a + ps <= dest + alloc_size src * count) /\
  (forall b, In b (dest_bytes c) ->
     dest <= fst b < dest + alloc_size src * count) /\
  spaced cx (dest_ptrs c) /\
  (forall a b, In a (dest_ptrs c) -> In b (dest_bytes c) -> ~ (fst a <= fst b < fst a + ps)) /\
  (OFFSET_IS_ADDR = false -> dest_bytes c = []).
Proof.
  intros Hwf E. unfold prepare_copy in E.
  destruct (copy_bytes cx s src) as [bs|e|] eqn:Hb; try discriminate.
  injection E as <-. cbn [dest_ptrs dest_bytes].
  destruct (copy_bytes_spec s src bs Hwf Hb) as [_ [B2 [B3 B4]]].
  pose proof Hwf as [_ [_ [Hsp _]]].
  assert (Hp : forall a, In a (repeat_shifted src dest count (copy_ptrs cx s src)) ->
            exists i a0, i < count /\ In a0 (ptrs s) /\
              alloc_start src <= fst a0 /\ fst a0 + ps <= alloc_end src /\
              fst a = fst a0 - alloc_start src + (dest + alloc_size src * i)).
  { intros a Ha. apply In_repeat_shifted in Ha as [i [a0 [Hi [Ha0 ->]]]].
    destruct (copy_ptrs_In s src a0 Ha0) as [Hin [Hl Hr]].
    exists i, a0. unfold shift_offset; simpl. auto 6. }
  assert (Hq : forall b, In b (repeat_shifted src dest count bs) ->
            exists j b0, j < count /\ In b0 bs /\
              alloc_start src <= fst b0 < alloc_end src /\
              fst b = fst b0 - alloc_start src + (dest + alloc_size src * j)).
  { intros b Hb'. apply In_repeat_shifted in Hb' as [j [b0 [Hj [Hb0 ->]]]].
    exists j, b0. unfold shift_offset; simpl. auto. }
  unfold alloc_end in *.
  split; [|split; [|split; [|split]]].
  - intros a Ha. destruct (Hp a Ha) as [i [a0 [Hi [_ [Hl [Hr ->]]]]]].
    pose proof (window_le (alloc_size src) i count Hi). lia.
  - intros b Hb'. destruct (Hq b Hb') as [j [b0 [Hj [_ [Hl ->]]]]].
    pose proof (window_le (alloc_size src) j count Hj). lia.
  - intros a b Ha Hb' Hlt.
    destruct (Hp a Ha) as [i [a0 [Hi [Ha0 [Hal [Har Ea]]]]]].
    destruct (Hp b Hb') as [j [b0 [Hj [Hb0 [Hbl [Hbr Eb]]]]]].
    destruct (N.lt_trichotomy i j) as [Hij|[<-|Hij]].
    + pose proof (window_le (alloc_size src) i j Hij). lia.
    + assert (Hlt0 : fst a0 < fst b0) by lia. specialize (Hsp a0 b0 Ha0 Hb0 Hlt0). lia.
    + pose proof (window_le (alloc_size src) j i Hij). lia.
  - intros a b Ha Hb'.
    destruct (Hp a Ha) as [i [a0 [Hi [Ha0 [Hal [Har Ea]]]]]].
    destruct (Hq b Hb') as [j [b0 [Hj [Hb0 [Hbl Eb]]]]].
    destruct (N.lt_trichotomy i j) as [Hij|[<-|Hij]].
    + pose proof (window_le (alloc_size src) i j Hij). lia.
    + specialize (B3 b0 a0 Hb0 Ha0 Hal). unfold alloc_end in B3.
      specialize (B3 Har). lia.
    + pose proof (window_le (alloc_size src) j i Hij). lia.
  - intros Ho. rewrite (B4 Ho). apply repeat_shifted_nil.
Qed.

Lemma wf_apply_copy (m' s : PM) src dest count c :
  wf cx m' -> wf cx s -> prepare_copy cx s src dest count = Ok c ->
  range_empty cx m' (alloc_range dest (alloc_size src * count)) = true ->
  wf cx (apply_copy m' c).
Proof.
  intros [Hs [Hsb [Hsp [Hout Hemp]]]] Hws E He.
  destruct (prepare_copy_layout s src dest count c Hws E) as [P1 [P2 [P3 [P4 P5]]]].
  apply range_empty_true in He as [Hnp Hnb]. unfold alloc_end, alloc_range in *; simpl in *.
  assert (Hpin : forall a, In a (ptrs (apply_copy m' c)) -> In a (ptrs m') \/ In a (dest_ptrs c))
    by (intros a; apply In_insert_presorted).
  assert (Hbin : forall b, In b (bytes (apply_copy m' c)) -> In b (bytes m') \/ In b (dest_bytes c)).
  { intros b. unfold apply_copy; simpl. destruct OFFSET_IS_ADDR; [apply In_insert_presorted|auto]. }
  split; [apply sorted_insert_presorted; exact Hs|split; [|split; [|split]]].
  - unfold apply_copy; simpl. destruct OFFSET_IS_ADDR; [apply sorted_insert_presorted|]; exact Hsb.
  - intros a b Ha Hb Hlt.
    destruct (Hpin a Ha) as [Ha'|Ha']; destruct (Hpin b Hb) as [Hb'|Hb'].
    + apply Hsp; auto.
    + specialize (P1 b Hb'). specialize (Hnp a Ha'). lia.
    + specialize (P1 a Ha'). specialize (Hnp b Hb'). lia.
    + apply P3; auto.
  - intros a b Ha Hb.
    destruct (Hpin a Ha) as [Ha'|Ha']; destruct (Hbin b Hb) as [Hb'|Hb'].
    + apply Hout; auto.
    + specialize (P2 b Hb'). specialize (Hnp a Ha'). lia.
    + specialize (P1 a Ha'). specialize (Hnb b Hb'). lia.
    + apply P4; auto.
  - intros Ho. unfold apply_copy; simpl. rewrite Ho. apply Hemp; exact Ho.
Qed.

(** Every map built by the documented operations satisfies the invariants. *)
Lemma reachable_wf (m : PM) : reachable cx m -> wf cx m.
Proof.
  induction 1 as [|l Hs Hsp|m o p Hr IH He|m r m' res Hr IH Hc
                 |m m' s src dest count c Hr IH Hrs IHs Hp Hc].
  - apply wf_new.
  - apply wf_presorted; auto.
  - apply wf_insert_ptr; auto.
  - replace m' with (fst (clear cx r m)) by (rewrite Hc; reflexivity). apply wf_clear; exact IH.
  - pose proof IH as [Hs [_ [_ [_ Hemp]]]].
    assert (Hok : snd (clear cx (alloc_range dest (alloc_size src * count)) m) = Ok tt)
      by (rewrite Hc; reflexivity).
    destruct (clear_ok_cleared m _ Hs Hemp Hok) as [Hre _].
    rewrite Hc in Hre. simpl in Hre.
    apply (wf_apply_copy m' s src dest count c); auto.
    replace m' with (fst (clear cx (alloc_range dest (alloc_size src * count)) m))
      by (rewrite Hc; reflexivity).
    apply wf_clear; exact IH.
Qed.

(** C1: every map obtained from [new] or from a presorted, spaced sequence
    by [insert_ptr] calls on empty spans, [clear] calls and [apply_copy] on
    cleared destinations keeps its pointer-sized entries a pointer size
    apart, its byte-wise entries outside their spans, and no byte-wise
    entries at all for non-splittable provenance. *)
Theorem reachable_disjoint (m : PM) : reachable cx m -> disjointness_inv cx m.
Proof. intros Hr. destruct (reachable_wf m Hr) as [_ [_ Hd]]. exact Hd. Qed.


(** *** Further properties of the map operations *)

Lemma insert_keep_other (l : SortedMap.t Prov) k v kv :
  StronglySorted klt l -> In kv l -> fst kv <> k -> In kv (SortedMap.insert k v l).
Proof. intros Hs Hin Hne. apply In_insert; auto. Qed.

Lemma insert_presorted_keep (es l : SortedMap.t Prov) kv :
  StronglySorted klt l -> In kv l -> (forall e, In e es -> fst e <> fst kv) ->
  In kv (SortedMap.insert_presorted es l).
Proof.
  revert l; induction es as [|e es IH]; intros l Hs Hin Hne; [exact Hin|].
  change (In kv (SortedMap.insert_presorted es (SortedMap.insert (fst e) (snd e) l))).
  apply IH; [apply sorted_insert; auto| |intros; apply Hne; right; auto].
  apply insert_keep_other; auto. intros Heq. apply (Hne e); [left|]; auto.
Qed.

Lemma insert_presorted_new (es l : SortedMap.t Prov) kv :
  StronglySorted klt l -> StronglySorted klt es -> In kv es ->
  In kv (SortedMap.insert_presorted es l).
Proof.
  revert l; induction es as [|e es IH]; intros l Hs Hes Hin; [destruct Hin|].
  inversion Hes; subst.
  change (In kv (SortedMap.insert_presorted es (SortedMap.insert (fst e) (snd e) l))).
  destruct Hin as [<-|Hin]; [|apply IH; auto; apply sorted_insert; auto].
  apply insert_presorted_keep; [apply sorted_insert; auto| |].
  - destruct e as [k v]. apply In_insert_self.
  - intros e' He'. eapply Forall_forall in H3; eauto. unfold klt in H3. lia.
Qed.

Lemma in_map_snd (l : list (N * Prov)) p :
  In p (map snd l) <-> exists kv, In kv l /\ snd kv = p.
Proof. rewrite in_map_iff. firstorder. Qed.

Lemma SS_same_key_length (l : list (N * Prov)) k :
  StronglySorted klt l -> (forall y, In y l -> fst y = k) -> (length l <= 1)%nat.
Proof.
  intros Hs Hk. destruct l as [|a [|b l]]; simpl; try lia.
  inversion Hs; subst. inversion H3; subst. unfold klt in H4.
  rewrite (Hk a), (Hk b) in H4 by (simpl; auto). lia.
Qed.

Lemma probe_covers (m : PM) o kv :
  In kv (range_get_ptrs cx m (alloc_range o 1)) <->
  In kv (ptrs m) /\ fst kv <= o < fst kv + ps.
Proof.
  rewrite In_range_get_ptrs. unfold alloc_end; simpl. split; intros [A B]; split; auto; lia.
Qed.

(** [get] is [None] exactly when no pointer-sized entry covers the offset and
    there is no byte-wise entry for it. *)
Lemma get_None_iff (m : PM) o :
  get cx m o = None <->
  (forall kv, In kv (ptrs m) -> ~ (fst kv <= o < fst kv + ps)) /\
  (forall p, ~ In (o, p) (bytes m)).
Proof.
  split.
  - unfold get. intros E.
    destruct (range_get_ptrs cx m (alloc_range o 1)) as [|e0 rest] eqn:HL; [|discriminate].
    split.
    + intros kv Hkv Hc. assert (Hin : In kv (range_get_ptrs cx m (alloc_range o 1)))
        by (apply probe_covers; auto).
      rewrite HL in Hin. destruct Hin.
    + intros p Hp. destruct (get_In_some o (bytes m) p Hp) as [v Hv]. congruence.
  - intros [Hn Hb]. rewrite get_uncovered by exact Hn. apply get_None. exact Hb.
Qed.

Lemma get_Some_iff (m : PM) o p :
  wf cx m ->
  get cx m o = Some p <->
  (exists k, In (k, p) (ptrs m) /\ k <= o < k + ps) \/
  ((forall kv, In kv (ptrs m) -> ~ (fst kv <= o < fst kv + ps)) /\ In (o, p) (bytes m)).
Proof.
  intros [Hs [Hsb [Hsp [Hout Hemp]]]].
  destruct (cover_dec (ptrs m) o) as [[[k q] [Hin Hc]]|Hn].
  - rewrite (get_covered m k q o Hs Hsp Hin Hc). split.
    + intros E; inversion E; subst. left; eauto.
    + intros [[k' [Hin' Hc']]|[Hn _]].
      * assert (Ek : k = k')
          by (apply (spaced_cover_unique (ptrs m) (k, q) (k', p) o); auto).
        subst k'. rewrite (sorted_key_unique k q p (ptrs m) Hs Hin Hin'). reflexivity.
      * exfalso. apply (Hn (k, q) Hin Hc).
  - rewrite get_uncovered by exact Hn. rewrite get_In by exact Hsb. split.
    + intros Hb. right; auto.
    + intros [[k [Hin Hc]]|[_ Hb]]; auto. exfalso. apply (Hn (k, p) Hin Hc).
Qed.

(** X: under the invariants, [get o] returns the provenance of the
    pointer-sized entry whose span covers [o] if there is one, and otherwise
    the byte-wise entry at [o]. *)
Theorem get_spec (m : PM) o p :
  wf cx m ->
  get cx m o = Some p <->
  (exists k, In (k, p) (ptrs m) /\ k <= o < k + ps) \/
  ((forall kv, In kv (ptrs m) -> ~ (fst kv <= o < fst kv + ps)) /\ In (o, p) (bytes m)).
Proof. apply get_Some_iff. Qed.

(** X: under the invariants the two debug assertions of [get] hold: the
    one-byte probe returns at most one pointer-sized entry, and when it
    returns one there is no byte-wise entry at that offset. *)
Theorem get_debug_asserts (m : PM) o :
  wf cx m ->
  (length (range_get_ptrs cx m (alloc_range o 1)) <= 1)%nat /\
  (range_get_ptrs cx m (alloc_range o 1) <> [] -> SortedMap.get o (bytes m) = None).
Proof.
  intros [Hs [Hsb [Hsp [Hout Hemp]]]].
  destruct (range_get_ptrs cx m (alloc_range o 1)) as [|e0 rest] eqn:HL.
  - split; [simpl; lia|intros []; reflexivity].
  - assert (He0 : In e0 (range_get_ptrs cx m (alloc_range o 1))) by (rewrite HL; left; auto).
    apply probe_covers in He0 as [He0 Hc0]. split.
    + rewrite <- HL. apply (SS_same_key_length _ (fst e0)).
      * apply range_get_ptrs_sorted; auto.
      * intros y Hy. apply probe_covers in Hy as [Hy Hcy].
        apply (spaced_cover_unique (ptrs m) y e0 o); auto.
    + intros _. apply get_None. intros v Hv. apply (Hout e0 (o, v) He0 Hv). simpl; lia.
Qed.

Lemma range_empty_get_none (m : PM) r o :
  range_empty cx m r = true -> alloc_start r <= o < alloc_end r -> get cx m o = None.
Proof.
  intros He Ho. apply range_empty_true in He as [Hnp Hnb].
  apply get_None_iff. split.
  - intros kv Hkv Hc. apply (Hnp kv Hkv). lia.
  - intros p Hp. apply (Hnb (o, p) Hp). simpl; lia.
Qed.

(** X: for a non-empty range, [range_empty] holds exactly when [get]
    returns [None] at every offset of the range. *)
Theorem range_empty_iff_get (m : PM) r :
  0 < alloc_size r ->
  range_empty cx m r = true <->
  (forall o, alloc_start r <= o < alloc_end r -> get cx m o = None).
Proof.
  intros Hsz. split; [intros He o Ho; apply (range_empty_get_none m r o He Ho)|].
  intros Hall. unfold range_empty.
  assert (Hp : range_get_ptrs cx m r = []).
  { apply nil_of_no_elem. intros kv Hkv. apply In_range_get_ptrs in Hkv as [Hkv [Hl Hr]].
    set (o := N.max (fst kv) (alloc_start r)).
    assert (Ho : alloc_start r <= o < alloc_end r) by (unfold o, alloc_end in *; lia).
    destruct (proj1 (get_None_iff m o) (Hall o Ho)) as [Hn _].
    apply (Hn kv Hkv). unfold o; lia. }
  assert (Hb : range_get_bytes m r = []).
  { apply nil_of_no_elem. intros [k p] Hkv. apply In_range_get_bytes in Hkv as [Hkv Hr].
    destruct (proj1 (get_None_iff m k) (Hall k Hr)) as [_ Hn]. apply (Hn p Hkv). }
  rewrite Hp, Hb. reflexivity.
Qed.


(** X: under the invariants and the [range_empty] precondition of
    [insert_ptr o p], [get] on the result returns [p] on the span
    [[o, o + ps)] and what it returned before everywhere else. *)
Theorem insert_ptr_get_all (m : PM) o p x :
  wf cx m -> range_empty cx m (alloc_range o ps) = true ->
  get cx (insert_ptr m o p) x = if (o <=? x) && (x <? o + ps) then Some p else get cx m x.
Proof.
  intros Hwf He. pose proof (wf_insert_ptr m o p Hwf He) as Hwf'.
  pose proof Hwf as [Hs [Hsb [Hsp [Hout Hemp]]]].
  pose proof Hwf' as [Hs' [_ [Hsp' _]]].
  pose proof (range_empty_true m _ He) as [Hnp _]. unfold alloc_end in Hnp; simpl in Hnp.
  assert (Hself : In (o, p) (ptrs (insert_ptr m o p))) by apply In_insert_self.
  ncase ((o <=? x) && (x <? o + ps)).
  - apply (get_covered _ o p x Hs' Hsp' Hself). lia.
  - assert (Hout' : ~ (o <= x < o + ps)) by (destruct Hc as [Hc|Hc]; nbool; lia).
    destruct (cover_dec (ptrs m) x) as [[[k q] [Hin Hcov]]|Hn].
    + assert (Hin' : In (k, q) (ptrs (insert_ptr m o p))).
      { apply insert_keep_other; auto. simpl. intros ->. apply (Hnp _ Hin). simpl; lia. }
      rewrite (get_covered _ k q x Hs' Hsp' Hin' Hcov).
      rewrite (get_covered _ k q x Hs Hsp Hin Hcov). reflexivity.
    + rewrite !get_uncovered; auto.
      intros kv Hkv. apply In_insert_weak in Hkv as [->|Hkv]; [simpl; lia|auto].
Qed.

(** X: [clear] on a range without provenance (as [range_empty] reports it)
    succeeds and leaves the map unchanged. *)
Theorem clear_empty_noop (m : PM) r :
  sorted_store (ptrs m) -> range_empty cx m r = true -> clear cx r m = (m, Ok tt).
Proof.
  intros Hs He. pose proof (range_empty_true m r He) as [_ Hnb].
  unfold range_empty in He. apply andb_true_iff in He as [Hp _].
  destruct OFFSET_IS_ADDR eqn:Ho.
  - rewrite clear_splittable by auto. cbv zeta.
    destruct (range_get_ptrs cx m r); [|discriminate].
    rewrite remove_range_noop by (intros kv Hkv; apply Hnb; auto).
    destruct m; reflexivity.
  - rewrite clear_unsplittable by auto.
    destruct (range_get_ptrs cx m r); [reflexivity|discriminate].
Qed.

(** X: a successful [clear r] on a map with the invariants removes exactly
    the pointer-sized entries whose span overlaps [r] and keeps all the
    others. *)
Theorem clear_ptrs_exact (m : PM) r :
  wf cx m -> snd (clear cx r m) = Ok tt ->
  forall kv, In kv (ptrs (fst (clear cx r m))) <->
             In kv (ptrs m) /\ ~ (fst kv < alloc_end r /\ alloc_start r < fst kv + ps).
Proof.
  intros [Hs [Hsb [Hsp [Hout Hemp]]]] Hok kv.
  assert (Hgen : forall e0 rest,
            range_get_ptrs cx m r = e0 :: rest ->
            (In kv (SortedMap.remove_range (fst e0) (fst (last rest e0) + ps) (ptrs m)) <->
             In kv (ptrs m) /\ ~ (fst kv < alloc_end r /\ alloc_start r < fst kv + ps))).
  { intros e0 rest HL. rewrite In_remove_range.
    destruct (range_get_ptrs_In m r e0 rest HL) as [He0 Hlast].
    assert (Hlk : In (last rest e0) (range_get_ptrs cx m r)) by (rewrite HL; apply last_In).
    assert (He0r : In e0 (range_get_ptrs cx m r)) by (rewrite HL; left; reflexivity).
    pose proof (proj1 (In_range_get_ptrs m r _) Hlk) as [_ [Hl1 Hl2]].
    pose proof (proj1 (In_range_get_ptrs m r _) He0r) as [_ [He1 He2]].
    pose proof (range_get_ptrs_bounds m r e0 rest _ Hs HL Hlk) as Hbd.
    split; intros [Hin Hn]; split; auto; intros Hc; apply Hn.
    - assert (Hk : In kv (range_get_ptrs cx m r)) by (apply In_range_get_ptrs; tauto).
      pose proof (range_get_ptrs_bounds m r e0 rest kv Hs HL Hk). lia.
    - split.
      + destruct (N.le_gt_cases (fst kv) (fst (last rest e0))) as [Hle|Hgt]; [lia|].
        specialize (Hsp _ _ Hlast Hin Hgt). lia.
      + lia. }
  assert (Hnone : range_get_ptrs cx m r = [] ->
                  (In kv (ptrs m) <->
                   In kv (ptrs m) /\ ~ (fst kv < alloc_end r /\ alloc_start r < fst kv + ps))).
  { intros HL. split; [|tauto]. intros Hin. split; auto. intros Hc.
    assert (Hk : In kv (range_get_ptrs cx m r)) by (apply In_range_get_ptrs; tauto).
    rewrite HL in Hk. destruct Hk. }
  destruct OFFSET_IS_ADDR eqn:Ho.
  - rewrite clear_splittable by auto. cbv zeta.
    destruct (range_get_ptrs cx m r) as [|e0 rest] eqn:HL; simpl; [apply Hnone; auto|].
    apply Hgen; auto.
  - rewrite clear_unsplittable in * by auto. cbv zeta in *.
    destruct (range_get_ptrs cx m r) as [|e0 rest] eqn:HL; [apply Hnone; auto|].
    destruct (fst e0 <? alloc_start r); [discriminate|].
    destruct (alloc_end r <? _); [discriminate|]. simpl. apply Hgen; auto.
Qed.

(** X: after a successful [clear r], [get] returns [None] at every offset of
    [r]. *)
Theorem clear_get_none (m : PM) r o :
  sorted_store (ptrs m) -> bytes_empty_if_unsplittable m ->
  snd (clear cx r m) = Ok tt -> alloc_start r <= o < alloc_end r ->
  get cx (fst (clear cx r m)) o = None.
Proof.
  intros Hs Hb Hok Ho. destruct (clear_ok_cleared m r Hs Hb Hok) as [He _].
  exact (range_empty_get_none _ r o He Ho).
Qed.

Lemma provenances_In (m : PM) p :
  In p (provenances m) <->
  (exists kv, In kv (ptrs m) /\ snd kv = p) \/ (exists kv, In kv (bytes m) /\ snd kv = p).
Proof. unfold provenances. rewrite in_app_iff, !in_map_snd. tauto. Qed.

(** X: [clear] never introduces a provenance: every provenance of the
    resulting map (whatever the outcome) was already in the map. *)
Theorem clear_provenances_sub (m : PM) r p :
  sorted_store (ptrs m) ->
  In p (provenances (fst (clear cx r m))) -> In p (provenances m).
Proof.
  intros Hs. rewrite !provenances_In.
  destruct OFFSET_IS_ADDR eqn:Ho.
  - rewrite clear_splittable by auto. cbv zeta.
    destruct (range_get_ptrs cx m r) as [|e0 rest] eqn:HL; simpl.
    + intros [H1|[kv [Hkv Hp]]]; auto. apply In_remove_range in Hkv as [Hkv _]. eauto.
    + destruct (range_get_ptrs_In m r e0 rest HL) as [He0 Hlast].
      intros [[kv [Hkv Hp]]|[kv [Hkv Hp]]].
      * apply In_remove_range in Hkv as [Hkv _]. eauto.
      * assert (Hc : In kv (SortedMap.remove_range (alloc_start r) (alloc_end r) (bytes m)) \/
                     snd kv = snd e0 \/ snd kv = snd (last rest e0)).
        { destruct (fst e0 <? alloc_start r); destruct (alloc_end r <? _);
            cbv beta iota in Hkv;
            repeat match goal with
            | Hx : In kv (insert_bytes_loop _ _ _ _) |- _ =>
                apply In_loop in Hx as [Hx|[_ Hx]]
            end; tauto. }
        destruct Hc as [Hc|[Hc|Hc]].
        -- apply In_remove_range in Hc as [Hc _]. eauto.
        -- left. exists e0. split; congruence.
        -- left. exists (last rest e0). split; congruence.
  - rewrite clear_unsplittable by auto. cbv zeta.
    destruct (range_get_ptrs cx m r) as [|e0 rest]; [auto|].
    destruct (fst e0 <? alloc_start r); [auto|].
    destruct (alloc_end r <? _); [auto|]. simpl.
    intros [[kv [Hkv Hp]]|Hb]; auto. apply In_remove_range in Hkv as [Hkv _]. eauto.
Qed.


Lemma nrange_empty lo hi : hi <= lo -> nrange lo hi = [].
Proof. intros Hle. apply nil_of_no_elem. intros o Ho. apply nrange_In in Ho. lia. Qed.

(** The end-fragment loop when all its offsets are past the buffer. *)
Lemma push_fresh offs entry s0 (bs : list (N * Prov)) :
  StronglySorted N.lt offs -> (forall b o, In b bs -> In o offs -> fst b < o) ->
  push_end_fragment offs entry s0 bs = Ok (bs ++ map (fun o => (o, snd entry)) offs).
Proof.
  revert bs; induction offs as [|o offs IH]; intros bs Hs Hlt; simpl.
  - rewrite app_nil_r. reflexivity.
  - inversion Hs as [|? ? Hss Hf]; subst.
    assert (Hc : match last_opt bs with None => true | Some be => fst be <? o end = true).
    { destruct bs as [|b0 bs']; [reflexivity|]. simpl. apply N.ltb_lt.
      apply Hlt; [apply last_In|left; reflexivity]. }
    rewrite Hc. rewrite IH; auto.
    + rewrite <- app_assoc. reflexivity.
    + intros b o' Hb Ho'. apply in_app_or in Hb as [Hb|[<-|[]]].
      * apply Hlt; auto; right; auto.
      * simpl. eapply Forall_forall in Hf; eauto.
Qed.

(** The end-fragment loop when every offset is already in the buffer. *)
Lemma push_skip offs entry s0 (bs : list (N * Prov)) :
  StronglySorted klt bs -> (forall o, In o offs -> exists b, In b bs /\ o <= fst b) ->
  fst entry <= s0 -> push_end_fragment offs entry s0 bs = Ok bs.
Proof.
  intros Hs; induction offs as [|o offs IH]; intros Hex Hle; simpl; [reflexivity|].
  destruct (Hex o (or_introl eq_refl)) as [b [Hb Hob]].
  destruct bs as [|b0 bs']; [destruct Hb|]. simpl.
  destruct (SS_last klt bs' b0 b Hs Hb) as [Eb|Hlt].
  - assert (Hc : (fst (last bs' b0) <? o) = false) by (apply N.ltb_ge; subst; lia).
    rewrite Hc. rewrite (proj2 (N.leb_le _ _) Hle). apply IH; auto.
    intros o' Ho'. apply Hex. right; auto.
  - unfold klt in Hlt.
    assert (Hc : (fst (last bs' b0) <? o) = false) by (apply N.ltb_ge; lia).
    rewrite Hc. rewrite (proj2 (N.leb_le _ _) Hle). apply IH; auto.
    intros o' Ho'. apply Hex. right; auto.
Qed.

(** Under the invariants a zero-length probe returns at most one entry. *)
Lemma probe0_unique (m : PM) X x y :
  wf cx m ->
  In x (range_get_ptrs cx m (alloc_range X 0)) ->
  In y (range_get_ptrs cx m (alloc_range X 0)) -> x = y.
Proof.
  intros [Hs [_ [Hsp _]]] Hx Hy.
  apply In_range_get_ptrs in Hx as [Hx [Hx1 Hx2]], Hy as [Hy [Hy1 Hy2]].
  unfold alloc_end, alloc_range in *; simpl in *.
  assert (Ek : fst x = fst y) by (apply (spaced_cover_unique (ptrs m) x y (X - 1)); auto; lia).
  destruct x as [k p], y as [k' q]; simpl in *. subst k'.
  rewrite (sorted_key_unique k p q (ptrs m) Hs Hx Hy). reflexivity.
Qed.

Lemma probe0_In (m : PM) X kv :
  In kv (ptrs m) -> fst kv < X < fst kv + ps ->
  In kv (range_get_ptrs cx m (alloc_range X 0)).
Proof. intros Hin Hc. apply In_range_get_ptrs. unfold alloc_end; simpl. split; auto; lia. Qed.

(** With splittable provenance and the invariants, [copy_bytes] succeeds
    with: the start fragment, the byte-wise entries of the range, and the end
    fragment when its pointer starts inside the range (otherwise it is the
    pointer of the start fragment and its bytes are already there). *)
Lemma copy_bytes_exact (m : PM) src :
  wf cx m -> OFFSET_IS_ADDR = true ->
  copy_bytes cx m src = Ok (
    ((match range_get_ptrs cx m (alloc_range (alloc_start src) 0) with
      | e0 :: _ => map (fun o => (o, snd e0))
                       (nrange (alloc_start src) (N.min (fst e0 + ps) (alloc_end src)))
      | [] => []
      end) ++ SortedMap.range (alloc_start src) (alloc_end src) (bytes m)) ++
    (match range_get_ptrs cx m (alloc_range (alloc_end src) 0) with
     | e1 :: _ => if alloc_start src <=? fst e1
                  then map (fun o => (o, snd e1)) (nrange (fst e1) (alloc_end src))
                  else []
     | [] => []
     end)).
Proof.
  intros Hwf Ho. pose proof Hwf as [Hs [Hsb [Hsp [Hout Hemp]]]].
  set (s := alloc_start src). set (e := alloc_end src).
  assert (Hmid : exists sp,
    (match range_get_ptrs cx m (alloc_range s 0) with
     | e0 :: _ => map (fun o => (o, snd e0)) (nrange s (N.min (fst e0 + ps) e))
     | [] => [] end) = sp /\
    StronglySorted klt (sp ++ SortedMap.range s e (bytes m)) /\
    (forall x, In x sp -> exists e0, In e0 (range_get_ptrs cx m (alloc_range s 0)) /\
        s <= fst x < N.min (fst e0 + ps) e /\ snd x = snd e0)).
  { destruct (range_get_ptrs cx m (alloc_range s 0)) as [|e0 r0] eqn:HS.
    - eexists; split; [reflexivity|]. split; [|intros x []].
      destruct (copy_mid_spec m src [] Hwf (SSorted_nil _) (fun x Hx => match Hx with end)
                  (fun x a Hx => match Hx with end) (fun x y Hx => match Hx with end))
        as [A1 _]. exact A1.
    - assert (He0 : In e0 (range_get_ptrs cx m (alloc_range s 0))) by (rewrite HS; left; auto).
      destruct (copy_start_spec m src e0 Hwf He0) as [S1 [S2 [S3 S4]]].
      destruct (copy_mid_spec m src _ Hwf S1 S2 S3 S4) as [A1 _].
      eexists; split; [reflexivity|]. split; [exact A1|].
      intros x Hx. apply in_map_iff in Hx as [o [<- Ho']]. apply nrange_In in Ho'.
      exists e0. split; [left; auto|]. simpl; auto. }
  destruct Hmid as [sp [Esp [Hss Hsp']]].
  unfold copy_bytes. rewrite Ho. fold s e. cbv zeta.
  assert (Hstart : match range_get_ptrs cx m (alloc_range s 0) with
                   | entry :: _ => if negb true then Err (PartialPointerCopy (fst entry))
                                   else Ok (map (fun o => (o, snd entry))
                                                (nrange s (N.min (fst entry + ps) e)))
                   | [] => Ok []
                   end = Ok sp).
  { rewrite <- Esp. destruct (range_get_ptrs cx m (alloc_range s 0)); reflexivity. }
  rewrite Hstart, Esp. clear Hstart.
  destruct (range_get_ptrs cx m (alloc_range e 0)) as [|e1 r1] eqn:HE;
    [rewrite app_nil_r; reflexivity|].
  assert (He1 : In e1 (range_get_ptrs cx m (alloc_range e 0))) by (rewrite HE; left; auto).
  pose proof (proj1 (In_range_get_ptrs m _ e1) He1) as [He1p [Hl Hr]].
  unfold alloc_end, alloc_range in Hl, Hr; simpl in Hl, Hr. rewrite N.add_0_r in Hl.
  cbv beta iota. simpl negb. cbv iota.
  ncase (s <=? fst e1).
  - rewrite N.max_l by lia. apply push_fresh; [apply nrange_sorted|].
    intros b o Hb Ho'. apply nrange_In in Ho'.
    apply in_app_or in Hb as [Hb|Hb].
    + destruct (Hsp' b Hb) as [e0 [He0 [Hb1 _]]].
      apply In_range_get_ptrs in He0 as [He0 [H01 H02]].
      unfold alloc_end, alloc_range in H01, H02; simpl in H01, H02.
      assert (Hlt : fst e0 < fst e1) by lia.
      specialize (Hsp e0 e1 He0 He1p Hlt). lia.
    + apply In_range in Hb as [Hb Hbr]. specialize (Hout e1 b He1p Hb). lia.
  - rewrite N.max_r by lia. rewrite app_nil_r.
    destruct (N.lt_ge_cases s e) as [Hse|Hse];
      [|rewrite nrange_empty by exact Hse; reflexivity].
    apply push_skip; [exact Hss| |simpl; lia].
    intros o Ho'. apply nrange_In in Ho'.
    assert (HinS : In e1 (range_get_ptrs cx m (alloc_range s 0)))
      by (apply probe0_In; auto; lia).
    destruct (range_get_ptrs cx m (alloc_range s 0)) as [|e0 r0] eqn:HS; [destruct HinS|].
    assert (He0 : In e0 (range_get_ptrs cx m (alloc_range s 0))) by (rewrite HS; left; auto).
    rewrite <- HS in HinS. rewrite (probe0_unique m s e0 e1 Hwf He0 HinS) in Esp.
    exists (o, snd e1). split; [|simpl; lia].
    apply in_or_app. left. rewrite <- Esp. apply in_map_iff. exists o.
    split; [reflexivity|]. apply nrange_In. lia.
Qed.

Lemma copy_bytes_unsplittable (m : PM) src bs :
  OFFSET_IS_ADDR = false -> copy_bytes cx m src = Ok bs ->
  range_get_ptrs cx m (alloc_range (alloc_start src) 0) = [] /\
  range_get_ptrs cx m (alloc_range (alloc_end src) 0) = [] /\ bs = [].
Proof.
  intros Ho E. unfold copy_bytes in E. rewrite Ho in E.
  destruct (range_get_ptrs cx m (alloc_range (alloc_start src) 0)); [|discriminate].
  destruct (range_get_ptrs cx m (alloc_range (alloc_end src) 0)); [|discriminate].
  injection E as <-. auto.
Qed.

(** X: under the invariants [prepare_copy] never reaches its [assert!] (the
    end fragment only re-meets offsets of the start fragment, whose pointer
    starts before the source range); with splittable provenance it always
    succeeds. *)
Theorem prepare_copy_no_panic (m : PM) src dest count :
  wf cx m ->
  prepare_copy cx m src dest count <> Panic /\
  (OFFSET_IS_ADDR = true -> exists c, prepare_copy cx m src dest count = Ok c).
Proof.
  intros Hwf. unfold prepare_copy.
  destruct OFFSET_IS_ADDR eqn:Ho.
  - rewrite (copy_bytes_exact m src Hwf Ho). split; [discriminate|eauto].
  - split; [|discriminate].
    unfold copy_bytes. rewrite Ho.
    destruct (range_get_ptrs cx m (alloc_range (alloc_start src) 0)); [|discriminate].
    destruct (range_get_ptrs cx m (alloc_range (alloc_end src) 0)); discriminate.
Qed.

(** X: with non-splittable provenance a successful [prepare_copy] plans no
    byte-wise entries, so the [debug_assert!] of [apply_copy] holds. *)
Theorem prepare_copy_unsplittable_no_bytes (m : PM) src dest count c :
  OFFSET_IS_ADDR = false -> prepare_copy cx m src dest count = Ok c -> dest_bytes c = [].
Proof.
  intros Ho E. unfold prepare_copy in E.
  destruct (copy_bytes cx m src) as [bs|e|] eqn:Hb; try discriminate.
  injection E as <-. simpl.
  destruct (copy_bytes_unsplittable m src bs Ho Hb) as [_ [_ ->]].
  apply repeat_shifted_nil.
Qed.


Lemma copy_ptrs_In_rev (m : PM) src kv :
  In kv (ptrs m) -> alloc_start src <= fst kv -> fst kv + ps <= alloc_end src ->
  In kv (copy_ptrs cx m src).
Proof.
  intros Hin H1 H2. unfold copy_ptrs. unfold alloc_end in H2.
  destruct (N.ltb_spec (alloc_size src) ps); [lia|].
  apply In_range. unfold alloc_end. split; auto; lia.
Qed.

(** The byte-wise plan of one repetition, entry by entry: an offset of the
    source range gets the provenance of a pointer that covers it without
    lying inside the range, or its own byte-wise provenance. *)
Lemma copy_bytes_In (m : PM) src bs o p :
  wf cx m -> OFFSET_IS_ADDR = true -> copy_bytes cx m src = Ok bs ->
  (In (o, p) bs <->
   alloc_start src <= o < alloc_end src /\
   ((exists k, In (k, p) (ptrs m) /\ k <= o < k + ps /\
               (k < alloc_start src \/ alloc_end src < k + ps)) \/
    In (o, p) (bytes m))).
Proof.
  intros Hwf Ho E. rewrite (copy_bytes_exact m src Hwf Ho) in E. injection E as <-.
  rewrite !in_app_iff. split.
  - intros [[Hsp0|Hr]|He].
    + destruct (range_get_ptrs cx m (alloc_range (alloc_start src) 0)) as [|e0 r0] eqn:HS;
        [destruct Hsp0|].
      apply in_map_iff in Hsp0 as [o' [Eq Ho']]. injection Eq as <- <-.
      apply nrange_In in Ho'.
      assert (He0 : In e0 (range_get_ptrs cx m (alloc_range (alloc_start src) 0)))
        by (rewrite HS; left; auto).
      apply In_range_get_ptrs in He0 as [He0 [H1 H2]].
      unfold alloc_end, alloc_range in H1, H2; simpl in H1, H2.
      destruct e0 as [k q]; simpl in *.
      split; [lia|]. left. exists k. split; [exact He0|]. split; lia.
    + apply In_range in Hr as [Hr Hb]. simpl in Hb. split; [exact Hb|right; exact Hr].
    + destruct (range_get_ptrs cx m (alloc_range (alloc_end src) 0)) as [|e1 r1] eqn:HE;
        [destruct He|].
      destruct (N.leb_spec (alloc_start src) (fst e1)) as [Hc|Hc]; [|destruct He].
      apply in_map_iff in He as [o' [Eq Ho']]. injection Eq as <- <-.
      apply nrange_In in Ho'.
      assert (He1 : In e1 (range_get_ptrs cx m (alloc_range (alloc_end src) 0)))
        by (rewrite HE; left; auto).
      apply In_range_get_ptrs in He1 as [He1 [H1 H2]].
      unfold alloc_range in H1, H2; unfold alloc_end in *; simpl in H1, H2.
      destruct e1 as [k q]; simpl in *.
      split; [lia|]. left. exists k. split; [exact He1|]. split; lia.
  - intros [Hoe [[k [Hk [Hc Hside]]]|Hb]].
    + destruct (N.lt_ge_cases k (alloc_start src)) as [Hks|Hks].
      * left; left.
        assert (Hin : In (k, p) (range_get_ptrs cx m (alloc_range (alloc_start src) 0)))
          by (apply probe0_In; simpl; auto; lia).
        destruct (range_get_ptrs cx m (alloc_range (alloc_start src) 0)) as [|e0 r0] eqn:HS;
          [destruct Hin|].
        assert (He0 : In e0 (range_get_ptrs cx m (alloc_range (alloc_start src) 0)))
          by (rewrite HS; left; auto).
        rewrite <- HS in Hin.
        rewrite (probe0_unique m _ e0 (k, p) Hwf He0 Hin).
        apply in_map_iff. exists o. split; [reflexivity|]. apply nrange_In. simpl. lia.
      * right.
        assert (Hke : alloc_end src < k + ps) by lia.
        assert (Hin : In (k, p) (range_get_ptrs cx m (alloc_range (alloc_end src) 0)))
          by (apply probe0_In; simpl; auto; lia).
        destruct (range_get_ptrs cx m (alloc_range (alloc_end src) 0)) as [|e1 r1] eqn:HE;
          [destruct Hin|].
        assert (He1 : In e1 (range_get_ptrs cx m (alloc_range (alloc_end src) 0)))
          by (rewrite HE; left; auto).
        rewrite <- HE in Hin.
        rewrite (probe0_unique m _ e1 (k, p) Hwf He1 Hin). simpl.
        destruct (N.leb_spec (alloc_start src) k); [|lia].
        apply in_map_iff. exists o. split; [reflexivity|]. apply nrange_In. lia.
    + left; right. apply In_range. split; [exact Hb|exact Hoe].
Qed.

(** The two halves of a successful copy plan, and their order. *)
Lemma prepare_copy_parts (s : PM) src dest count c :
  wf cx s -> prepare_copy cx s src dest count = Ok c ->
  exists bs, copy_bytes cx s src = Ok bs /\
    dest_ptrs c = repeat_shifted src dest count (copy_ptrs cx s src) /\
    dest_bytes c = repeat_shifted src dest count bs /\
    StronglySorted klt (dest_ptrs c) /\ StronglySorted klt (dest_bytes c).
Proof.
  intros Hwf E. unfold prepare_copy in E.
  destruct (copy_bytes cx s src) as [bs| |] eqn:Hb; try discriminate.
  injection E as <-. exists bs. simpl.
  split; [reflexivity|]. split; [reflexivity|]. split; [reflexivity|]. split.
  - apply SS_repeat_shifted; [apply copy_ptrs_sorted; exact (proj1 Hwf)|].
    intros kv Hk. apply copy_ptrs_In in Hk. lia.
  - destruct (copy_bytes_spec s src bs Hwf Hb) as [B1 [B2 _]]. apply SS_repeat_shifted; auto.
Qed.

(** X: a copy plan only carries provenance that the source map already
    holds: every entry of [dest_ptrs] and [dest_bytes] has a provenance of
    [provenances] of the map it was computed from. *)
Theorem prepare_copy_provenances (m : PM) src dest count c kv :
  wf cx m -> prepare_copy cx m src dest count = Ok c ->
  In kv (dest_ptrs c ++ dest_bytes c) -> In (snd kv) (provenances m).
Proof.
  intros Hwf E Hin.
  destruct (prepare_copy_parts m src dest count c Hwf E) as [bs [Hb [Ep [Eb _]]]].
  apply provenances_In. rewrite Ep, Eb in Hin.
  apply in_app_or in Hin as [H1|H1];
    apply In_repeat_shifted in H1 as [i [kv0 [_ [Hk ->]]]]; simpl.
  - left. exists kv0. split; [|reflexivity]. apply (copy_ptrs_In m src kv0 Hk).
  - destruct OFFSET_IS_ADDR eqn:Ho.
    + destruct kv0 as [o p]. simpl.
      apply (copy_bytes_In m src bs o p Hwf Ho Hb) in Hk as [_ [[k [Hk _]]|Hk]].
      * left. exists (k, p). auto.
      * right. exists (o, p). auto.
    + destruct (copy_bytes_unsplittable m src bs Ho Hb) as [_ [_ ->]]. destruct Hk.
Qed.


Lemma get_insert_presorted_other o (es l : SortedMap.t Prov) :
  StronglySorted klt l -> (forall e, In e es -> fst e <> o) ->
  SortedMap.get o (SortedMap.insert_presorted es l) = SortedMap.get o l.
Proof.
  unfold SortedMap.insert_presorted. revert l.
  induction es as [|e es IH]; intros l Hs Hne; simpl; [reflexivity|].
  rewrite IH.
  - rewrite get_insert by exact Hs.
    destruct (N.eqb_spec o (fst e)) as [Heq|]; [|reflexivity].
    exfalso. apply (Hne e); [left|]; auto.
  - exact (sorted_insert_presorted [e] l Hs).
  - intros e' He'. apply Hne. right; exact He'.
Qed.

Local Ltac window_lia :=
  unfold shift_offset, alloc_end, alloc_range in *; cbn [alloc_start alloc_size fst snd] in *;
  lia.

(** X: a copy round trip. After [apply_copy] of a plan computed from a
    well-formed map [s] onto a well-formed map [m] whose destination range
    is clear, reading offset [o] of the source range in repetition [i] gives
    what reading [o] in [s] gives. *)
Theorem apply_copy_get_roundtrip (m s : PM) src dest count c i o :
  wf cx m -> wf cx s -> prepare_copy cx s src dest count = Ok c ->
  range_empty cx m (alloc_range dest (alloc_size src * count)) = true ->
  i < count -> alloc_start src <= o < alloc_end src ->
  get cx (apply_copy m c) (shift_offset src dest i o) = get cx s o.
Proof.
  intros Hm Hs E Hre Hi Ho.
  pose proof (wf_apply_copy m s src dest count c Hm Hs E Hre) as [Ts [Tsb [Tsp _]]].
  destruct (prepare_copy_parts s src dest count c Hs E) as [bs [Hb [Ep [Eb [SSp SSb]]]]].
  destruct (copy_bytes_spec s src bs Hs Hb) as [B1 [B2 _]].
  destruct (range_empty_true m _ Hre) as [Np Nb].
  pose proof Hs as [Ss [Ssb [Sps [Sout Semp]]]].
  destruct Hm as [Ms [Msb _]].
  assert (Wc : alloc_size src * i + alloc_size src <= alloc_size src * count)
    by (apply window_le; exact Hi).
  pose proof (shift_window src dest i o Ho) as Wx.
  (* no entry of [m] reaches the destination *)
  assert (F1p : forall a, In a (ptrs m) ->
            ~ (fst a <= shift_offset src dest i o < fst a + ps)).
  { intros a Ha Hc. apply (Np a Ha). window_lia. }
  (* a copied pointer covering the target comes from this repetition *)
  assert (F2 : forall a, In a (dest_ptrs c) ->
            fst a <= shift_offset src dest i o < fst a + ps ->
            exists k, In (k, snd a) (ptrs s) /\ alloc_start src <= k /\
                      k + ps <= alloc_end src /\ k <= o < k + ps).
  { intros a Ha Hc. rewrite Ep in Ha.
    apply In_repeat_shifted in Ha as [j [a0 [Hj [Ha0 ->]]]]. cbn [fst snd] in Hc |- *.
    apply copy_ptrs_In in Ha0 as [Ha0 [Hk1 Hk2]].
    assert (Eji : j = i).
    { destruct (N.lt_trichotomy j i) as [Hl|[Hl|Hl]]; auto; exfalso.
      - pose proof (window_le (alloc_size src) j i Hl). window_lia.
      - pose proof (window_le (alloc_size src) i j Hl). window_lia. }
    subst j. exists (fst a0). split; [destruct a0; exact Ha0|]. window_lia. }
  assert (F3 : forall k p, In (k, p) (ptrs s) -> alloc_start src <= k ->
            k + ps <= alloc_end src -> In (shift_offset src dest i k, p) (dest_ptrs c)).
  { intros k p Hk H1 H2. rewrite Ep. apply In_repeat_shifted. exists i, (k, p).
    split; [exact Hi|]. split; [apply copy_ptrs_In_rev; auto|reflexivity]. }
  (* a copied byte at the target comes from offset [o] *)
  assert (F4 : forall v, In (shift_offset src dest i o, v) (dest_bytes c) -> In (o, v) bs).
  { intros v Hv. rewrite Eb in Hv.
    apply In_repeat_shifted in Hv as [j [b0 [Hj [Hb0 Eq]]]]. injection Eq as Eq1 Eq2.
    pose proof (B2 b0 Hb0) as Hw.
    assert (Eji : j = i).
    { destruct (N.lt_trichotomy j i) as [Hl|[Hl|Hl]]; auto; exfalso.
      - pose proof (window_le (alloc_size src) j i Hl). window_lia.
      - pose proof (window_le (alloc_size src) i j Hl). window_lia. }
    subst j. destruct b0 as [o' v']. cbn [fst snd] in *. subst v'.
    assert (o' = o) by window_lia. subst o'. exact Hb0. }
  assert (F5 : forall v, In (o, v) bs -> In (shift_offset src dest i o, v) (dest_bytes c)).
  { intros v Hv. rewrite Eb. apply In_repeat_shifted. exists i, (o, v).
    split; [exact Hi|]. split; [exact Hv|reflexivity]. }
  assert (TP1 : forall a, In a (ptrs (apply_copy m c)) -> In a (ptrs m) \/ In a (dest_ptrs c)).
  { intros a Ha. unfold apply_copy in Ha; cbn [ptrs] in Ha.
    apply In_insert_presorted in Ha. exact Ha. }
  assert (TP2 : forall a, In a (dest_ptrs c) -> In a (ptrs (apply_copy m c))).
  { intros a Ha. unfold apply_copy; cbn [ptrs]. apply insert_presorted_new; auto. }
  assert (TB1 : forall b, In b (bytes (apply_copy m c)) ->
            In b (bytes m) \/ (OFFSET_IS_ADDR = true /\ In b (dest_bytes c))).
  { intros b Hb'. unfold apply_copy in Hb'; cbn [bytes] in Hb'.
    destruct OFFSET_IS_ADDR; [apply In_insert_presorted in Hb'; tauto|left; exact Hb']. }
  assert (TB2 : OFFSET_IS_ADDR = true ->
            forall b, In b (dest_bytes c) -> In b (bytes (apply_copy m c))).
  { intros Hoff b Hb'. unfold apply_copy; cbn [bytes]. rewrite Hoff.
    apply insert_presorted_new; auto. }
  assert (UT : (forall k q, In (k, q) (ptrs s) -> k <= o < k + ps ->
                  ~ (alloc_start src <= k /\ k + ps <= alloc_end src)) ->
               forall a, In a (ptrs (apply_copy m c)) ->
               ~ (fst a <= shift_offset src dest i o < fst a + ps)).
  { intros Hno a Ha Hc. destruct (TP1 a Ha) as [Ha'|Ha']; [exact (F1p a Ha' Hc)|].
    destruct (F2 a Ha' Hc) as [k [Hk [H1 [H2 H3]]]].
    exact (Hno k (snd a) Hk H3 (conj H1 H2)). }
  destruct (cover_dec (ptrs s) o) as [[[k p] [Hk Hc]]|Hnc].
  - cbn [fst] in Hc. rewrite (get_covered s k p o Ss Sps Hk Hc).
    assert (Hcase : (alloc_start src <= k /\ k + ps <= alloc_end src) \/
                    (k < alloc_start src \/ alloc_end src < k + ps)) by lia.
    destruct Hcase as [[Hk1 Hk2]|Hstr].
    + (* the pointer lies inside the source range: it is copied whole *)
      apply (get_covered _ (shift_offset src dest i k) p _ Ts Tsp).
      * apply TP2, F3; auto.
      * window_lia.
    + (* the pointer sticks out: its bytes are copied one by one *)
      destruct OFFSET_IS_ADDR eqn:Hoff.
      * assert (Hob : In (o, p) bs).
        { apply (copy_bytes_In s src bs o p Hs Hoff Hb). split; [exact Ho|].
          left. exists k. auto. }
        assert (Hno : forall k' q, In (k', q) (ptrs s) -> k' <= o < k' + ps ->
                        ~ (alloc_start src <= k' /\ k' + ps <= alloc_end src)).
        { intros k' q Hk' Hc' [H1 H2].
          assert (Ek : fst (k', q) = fst (k, p))
            by (apply (spaced_cover_unique (ptrs s) (k', q) (k, p) o); auto).
          cbn [fst] in Ek. lia. }
        rewrite (get_uncovered _ _ (UT Hno)).
        apply get_In; [exact Tsb|]. apply TB2; [reflexivity|]. apply F5. exact Hob.
      * exfalso. destruct (copy_bytes_unsplittable s src bs Hoff Hb) as [P1 [P2 _]].
        destruct Hstr as [Hl|Hl].
        -- assert (Hin : In (k, p) (range_get_ptrs cx s (alloc_range (alloc_start src) 0)))
             by (apply probe0_In; simpl; auto; lia).
           rewrite P1 in Hin. exact Hin.
        -- assert (Hin : In (k, p) (range_get_ptrs cx s (alloc_range (alloc_end src) 0)))
             by (apply probe0_In; simpl; auto; lia).
           rewrite P2 in Hin. exact Hin.
  - rewrite (get_uncovered s o Hnc).
    rewrite (get_uncovered _ _ (UT (fun k q Hk Hc _ => Hnc (k, q) Hk Hc))).
    destruct (SortedMap.get o (bytes s)) as [p|] eqn:Hg.
    + apply (get_In o (bytes s) p Ssb) in Hg.
      destruct OFFSET_IS_ADDR eqn:Hoff; [|rewrite (Semp Hoff) in Hg; destruct Hg].
      apply get_In; [exact Tsb|]. apply TB2; [reflexivity|]. apply F5.
      apply (copy_bytes_In s src bs o p Hs Hoff Hb). split; [exact Ho|right; exact Hg].
    + apply get_None. intros v Hv. destruct (TB1 _ Hv) as [Hv'|[Hoff Hv']].
      * apply (Nb _ Hv'). window_lia.
      * apply F4 in Hv'.
        apply (copy_bytes_In s src bs o v Hs Hoff Hb) in Hv' as [_ [[k [Hk [Hc _]]]|Hv']].
        -- exact (Hnc (k, v) Hk Hc).
        -- destruct (get_In_some o (bytes s) v Hv') as [v' Hv'']. congruence.
Qed.

(** X: [apply_copy] onto a well-formed map whose destination range is clear
    changes [get] at no offset outside the destination range
    [dest .. dest + size * count]. *)
Theorem apply_copy_get_outside (m s : PM) src dest count c x :
  wf cx m -> wf cx s -> prepare_copy cx s src dest count = Ok c ->
  range_empty cx m (alloc_range dest (alloc_size src * count)) = true ->
  ~ (dest <= x < dest + alloc_size src * count) ->
  get cx (apply_copy m c) x = get cx m x.
Proof.
  intros Hm Hs E Hre Hx.
  pose proof (wf_apply_copy m s src dest count c Hm Hs E Hre) as [Ts [Tsb [Tsp _]]].
  destruct (prepare_copy_layout s src dest count c Hs E) as [L1 [L2 _]].
  destruct (range_empty_true m _ Hre) as [Np Nb].
  destruct Hm as [Ms [Msb [Msp _]]].
  destruct (cover_dec (ptrs m) x) as [[[k p] [Hk Hc]]|Hnc].
  - cbn [fst] in Hc. rewrite (get_covered m k p x Ms Msp Hk Hc).
    apply (get_covered _ k p x Ts Tsp); [|exact Hc].
    unfold apply_copy; cbn [ptrs]. apply insert_presorted_keep; auto.
    intros a Ha Heq. destruct (L1 a Ha). apply (Np _ Hk). window_lia.
  - rewrite (get_uncovered m x Hnc).
    assert (HTnc : forall a, In a (ptrs (apply_copy m c)) -> ~ (fst a <= x < fst a + ps)).
    { intros a Ha Hc. unfold apply_copy in Ha; cbn [ptrs] in Ha.
      apply In_insert_presorted in Ha as [Ha|Ha]; [exact (Hnc a Ha Hc)|].
      destruct (L1 a Ha). apply Hx. window_lia. }
    rewrite (get_uncovered _ x HTnc).
    unfold apply_copy; cbn [bytes]. destruct OFFSET_IS_ADDR; [|reflexivity].
    apply get_insert_presorted_other; [exact Msb|].
    intros b Hb' Heq. apply Hx. specialize (L2 b Hb'). window_lia.
Qed.


(** X: an entry that [get_ptr] finds at [offset] is also what [get]
    returns at [offset]: a pointer-sized entry covers its own first byte. *)
Theorem get_ptr_get (m : PM) o p :
  wf cx m -> get_ptr m o = Some p -> get cx m o = Some p.
Proof.
  intros [Hs [_ [Hsp _]]] Hg. unfold get_ptr in Hg.
  apply (get_In o (ptrs m) p Hs) in Hg.
  apply (get_covered m o p o Hs Hsp Hg). lia.
Qed.

End Facts.
End MapFacts.

(** ** Concrete runs

    Pointer width 8. [AllocId] provenance is non-splittable, [ExposedProv]
    provenance is splittable. *)

Module Examples.
Import StoreFacts MapFacts.

Local Abbreviation cx8 := (MkDataLayout 8).
Local Abbreviation px := (MkExposedProv 1 2).
(* a pointer-sized [AllocId] entry on [0, 8) *)
Local Abbreviation ai0 := (insert_ptr (Prov:=AllocId) new 0 7).
(* a pointer-sized [ExposedProv] entry on [4, 12) *)
Local Abbreviation ex4 := (insert_ptr new 4 px).

(** C5, counterexample: clearing [[6, 10)] in a splittable map whose only
    entry is a pointer at 4 (span [[4, 12)]) succeeds but leaves byte-wise
    entries of its provenance at offsets 10 and 11. *)
Lemma clear_edge_split_keeps_suffix :
  snd (clear cx8 (alloc_range 6 4) ex4) = Ok tt /\
  get cx8 (fst (clear cx8 (alloc_range 6 4) ex4)) 10 = Some px /\
  get cx8 (fst (clear cx8 (alloc_range 6 4) ex4)) 11 = Some px.
Proof. vm_compute. split; [reflexivity|split; reflexivity]. Qed.

(** C5 (amended): for splittable provenance, pointer width 8 and a single
    pointer-sized entry at 4 (span [[4, 12)]), clearing [[6, 10)] succeeds,
    removes the pointer-sized entry and leaves byte-wise entries with its
    provenance at 4, 5, 10 and 11, the parts of the span outside the range;
    no entry covers offsets 6 through 9. *)
Theorem clear_edge_split {Prov : Type} {HP : Provenance Prov} (p : Prov) :
  OFFSET_IS_ADDR = true ->
  clear cx8 (alloc_range 6 4) (insert_ptr new 4 p) =
    (MkProvenanceMap [] [(4, p); (5, p); (10, p); (11, p)], Ok tt) /\
  (forall o, 6 <= o <= 9 ->
     get cx8 (fst (clear cx8 (alloc_range 6 4) (insert_ptr new 4 p))) o = None).
Proof.
  intros Ho.
  assert (E : clear cx8 (alloc_range 6 4) (insert_ptr new 4 p) =
                (MkProvenanceMap [] [(4, p); (5, p); (10, p); (11, p)], Ok tt))
    by (unfold OFFSET_IS_ADDR in Ho; subst HP; vm_compute; reflexivity).
  split; [exact E|]. rewrite E. intros o Hr.
  assert (Hc : o = 6 \/ o = 7 \/ o = 8 \/ o = 9) by lia.
  destruct Hc as [-> | [-> | [-> | ->]]]; vm_compute; reflexivity.
Qed.

(** C6, counterexample: with a pointer-sized entry at 8 and nothing else,
    the zero-length probe [[8, 8)] reports the range as empty. *)
Lemma zero_length_probe_at_start :
  ptrs (insert_ptr (Prov:=AllocId) new 8 7) = [(8, 7)] /\
  range_empty cx8 (insert_ptr (Prov:=AllocId) new 8 7) (alloc_range 8 0) = true.
Proof. split; reflexivity. Qed.

(** Witnesses: each claim theorem applied to a concrete map. *)

Lemma reachable_disjoint_witness :
  disjointness_inv cx8
    (apply_copy ai0 (MkProvenanceCopy [(16, 7); (24, 7)] [])).
Proof.
  apply (reachable_disjoint cx8 eq_refl).
  eapply reachable_copy with (m := ai0) (s := ai0) (src := alloc_range 0 8)
                             (dest := 16) (count := 2).
  - apply reachable_insert_ptr; [apply reachable_new|reflexivity].
  - apply reachable_insert_ptr; [apply reachable_new|reflexivity].
  - reflexivity.
  - reflexivity.
Defined.

Lemma prepare_copy_sorted_witness :
  prepare_copy cx8 ex4 (alloc_range 6 4) 100 2 =
    Ok (MkProvenanceCopy []
          [(100, px); (101, px); (102, px); (103, px);
           (104, px); (105, px); (106, px); (107, px)]) /\
  NoDup [100; 101; 102; 103; 104; 105; 106; 107].
Proof.
  assert (E : prepare_copy cx8 ex4 (alloc_range 6 4) 100 2 =
    Ok (MkProvenanceCopy []
          [(100, px); (101, px); (102, px); (103, px);
           (104, px); (105, px); (106, px); (107, px)])) by reflexivity.
  assert (Hwf : wf cx8 ex4)
    by (apply (reachable_wf cx8 eq_refl);
        apply reachable_insert_ptr; [apply reachable_new|reflexivity]).
  split; [exact E|].
  exact (proj2 (proj2 (proj2 (prepare_copy_sorted cx8 eq_refl _ _ _ _ _ Hwf E)))).
Defined.

Lemma clear_partial_overwrite_witness :
  snd (clear cx8 (alloc_range 2 8) ai0) = Err (PartialPointerOverwrite 0) /\
  fst (clear cx8 (alloc_range 2 8) ai0) = ai0.
Proof.
  assert (Hs : sorted_store (ptrs ai0)) by (repeat constructor).
  destruct (clear_partial_overwrite cx8 eq_refl ai0 (alloc_range 2 8) eq_refl Hs)
    as [_ Hfail].
  assert (E : snd (clear cx8 (alloc_range 2 8) ai0) = Err (PartialPointerOverwrite 0))
    by reflexivity.
  split; [exact E|exact (proj1 (Hfail 0 E))].
Defined.

Lemma prepare_copy_partial_pointer_witness :
  prepare_copy cx8 ai0 (alloc_range 4 8) 100 1 = Err (PartialPointerCopy 0) /\
  exists p, In (0, p) (ptrs ai0).
Proof.
  destruct (prepare_copy_partial_pointer cx8 eq_refl ai0 (alloc_range 4 8) 100 1 eq_refl)
    as [_ Hfail].
  assert (E : prepare_copy cx8 ai0 (alloc_range 4 8) 100 1 = Err (PartialPointerCopy 0))
    by reflexivity.
  split; [exact E|]. destruct (Hfail 0 E) as [p [Hin _]]. exists p. exact Hin.
Defined.

Lemma zero_length_probe_witness :
  range_empty cx8 (insert_ptr (Prov:=AllocId) new 8 7) (alloc_range 8 0) = true /\
  range_empty cx8 (insert_ptr (Prov:=AllocId) new 8 7) (alloc_range 7 0) = true /\
  range_empty cx8 (insert_ptr (Prov:=AllocId) new 8 7) (alloc_range 12 0) = false.
Proof.
  assert (Hn : forall kv, In kv (ptrs (insert_ptr (Prov:=AllocId) new 8 7)) ->
                 ~ (8 - 8 <= fst kv < 8))
    by (simpl; intros kv [<-|[]]; simpl; lia).
  destruct (zero_length_probe cx8 eq_refl (insert_ptr (Prov:=AllocId) new 8 7) 8 7
              (or_introl eq_refl) Hn) as [A [B [C _]]].
  split; [exact A|split; [exact B|apply C; simpl; lia]].
Defined.

Lemma insert_ptr_get_witness : get cx8 ai0 3 = Some 7.
Proof.
  apply (insert_ptr_get cx8 eq_refl new 0 7 3); [reflexivity|simpl; lia].
Defined.

Lemma clear_idempotent_witness :
  fst (clear cx8 (alloc_range 6 4) (fst (clear cx8 (alloc_range 6 4) ex4))) =
    fst (clear cx8 (alloc_range 6 4) ex4) /\
  range_empty cx8 (fst (clear cx8 (alloc_range 6 4) ex4)) (alloc_range 6 4) = true.
Proof.
  assert (Hs : sorted_store (ptrs ex4)) by (repeat constructor).
  assert (Hb : bytes_empty_if_unsplittable ex4) by (intros _; reflexivity).
  destruct (clear_idempotent cx8 eq_refl ex4 (alloc_range 6 4) Hs Hb)
    as [A [B [C _]]].
  split; [exact A|exact (B (C eq_refl))].
Defined.

Lemma clear_zero_length_witness :
  snd (clear cx8 (alloc_range 3 0) (insert_ptr new 0 px)) = Ok tt /\
  SortedMap.get 5 (bytes (fst (clear cx8 (alloc_range 3 0) (insert_ptr new 0 px)))) =
    Some px.
Proof.
  assert (Hwf : wf cx8 (insert_ptr new 0 px))
    by (apply (reachable_wf cx8 eq_refl);
        apply reachable_insert_ptr; [apply reachable_new|reflexivity]).
  destruct (clear_zero_length cx8 eq_refl (insert_ptr new 0 px) 3 Hwf) as [_ Hk].
  assert (Hr : 0 < 3 < 0 + 8) by lia.
  destruct (Hk 0 px (or_introl eq_refl) Hr) as [_ Ht].
  destruct (Ht eq_refl) as [Hok [_ Hget]].
  split; [exact Hok|rewrite Hget; reflexivity].
Defined.

Lemma clear_preserves_get_outside_witness :
  get cx8 (fst (clear cx8 (alloc_range 6 4) ex4)) 10 = get cx8 ex4 10.
Proof.
  assert (Hwf : wf cx8 ex4)
    by (apply (reachable_wf cx8 eq_refl);
        apply reachable_insert_ptr; [apply reachable_new|reflexivity]).
  apply (clear_preserves_get_outside cx8 eq_refl ex4 (alloc_range 6 4) 10 eq_refl Hwf).
  - reflexivity.
  - right. vm_compute. discriminate.
Defined.

Lemma clear_edge_split_witness :
  clear cx8 (alloc_range 6 4) ex4 =
    (MkProvenanceMap [] [(4, px); (5, px); (10, px); (11, px)], Ok tt).
Proof. exact (proj1 (clear_edge_split px eq_refl)). Defined.

End Examples.

Module ExtraExamples.
Import StoreFacts MapFacts.

Local Abbreviation cx8 := (MkDataLayout 8).
Local Abbreviation px := (MkExposedProv 1 2).
Local Abbreviation ai0 := (insert_ptr (Prov:=AllocId) new 0 7).
Local Abbreviation ex4 := (insert_ptr new 4 px).
(* pointers at 4 and 20 *)
Local Abbreviation ex4b := (insert_ptr ex4 20 px).
(* the plan for copying [[2, 14)] of [ex4] twice to 100 *)
Local Abbreviation cp2 := (MkProvenanceCopy [(102, px); (114, px)] []).
(* the plan for copying [[6, 10)] of [ex4] twice to 100 *)
Local Abbreviation cp6 := (MkProvenanceCopy []
  [(100, px); (101, px); (102, px); (103, px); (104, px); (105, px); (106, px); (107, px)]).

Lemma wf_ai0 : wf cx8 ai0.
Proof.
  apply (reachable_wf cx8 eq_refl).
  apply reachable_insert_ptr; [apply reachable_new|reflexivity].
Qed.

Lemma wf_ex4 : wf cx8 ex4.
Proof.
  apply (reachable_wf cx8 eq_refl).
  apply reachable_insert_ptr; [apply reachable_new|reflexivity].
Qed.

Lemma wf_ex4b : wf cx8 ex4b.
Proof.
  apply (reachable_wf cx8 eq_refl).
  apply reachable_insert_ptr; [|reflexivity].
  apply reachable_insert_ptr; [apply reachable_new|reflexivity].
Qed.

(** Witnesses: each extra theorem applied to a concrete map. *)

Lemma get_spec_witness :
  get cx8 ex4 6 = Some px /\ exists k, In (k, px) (ptrs ex4) /\ k <= 6 < k + 8.
Proof.
  assert (E : get cx8 ex4 6 = Some px) by reflexivity.
  split; [exact E|].
  destruct (proj1 (get_spec cx8 eq_refl ex4 6 px wf_ex4) E) as [Hk|[Hn _]]; [exact Hk|].
  exfalso. apply (Hn (4, px)); [left; reflexivity|simpl; lia].
Defined.

Lemma get_debug_asserts_witness :
  (length (range_get_ptrs cx8 ex4 (alloc_range 5 1)) <= 1)%nat /\
  range_get_ptrs cx8 ex4 (alloc_range 5 1) <> [] /\ SortedMap.get 5 (bytes ex4) = None.
Proof.
  destruct (get_debug_asserts cx8 eq_refl ex4 5 wf_ex4) as [A B].
  assert (Hne : range_get_ptrs cx8 ex4 (alloc_range 5 1) <> []) by (vm_compute; discriminate).
  split; [exact A|split; [exact Hne|exact (B Hne)]].
Defined.

Lemma range_empty_iff_get_witness :
  range_empty cx8 ai0 (alloc_range 8 4) = true /\ get cx8 ai0 9 = None.
Proof.
  assert (E : range_empty cx8 ai0 (alloc_range 8 4) = true) by reflexivity.
  assert (Hpos : 0 < alloc_size (alloc_range 8 4)) by (simpl; lia).
  split; [exact E|].
  apply (proj1 (range_empty_iff_get cx8 eq_refl ai0 (alloc_range 8 4) Hpos) E).
  unfold alloc_end; simpl; lia.
Defined.

Lemma insert_ptr_get_all_witness :
  get cx8 (insert_ptr ai0 8 9%N) 12 = Some 9%N /\ get cx8 (insert_ptr ai0 8 9%N) 3 = Some 7%N.
Proof.
  assert (Hr : range_empty cx8 ai0 (alloc_range 8 8) = true) by reflexivity.
  rewrite (insert_ptr_get_all cx8 eq_refl ai0 8 9%N 12 wf_ai0 Hr),
          (insert_ptr_get_all cx8 eq_refl ai0 8 9%N 3 wf_ai0 Hr).
  split; reflexivity.
Defined.

Lemma clear_empty_noop_witness : clear cx8 (alloc_range 8 4) ai0 = (ai0, Ok tt).
Proof.
  apply (clear_empty_noop cx8 eq_refl ai0 (alloc_range 8 4)); [exact (proj1 wf_ai0)|].
  reflexivity.
Defined.

Lemma clear_ptrs_exact_witness :
  In (20, px) (ptrs (fst (clear cx8 (alloc_range 6 4) ex4b))) /\
  ~ In (4, px) (ptrs (fst (clear cx8 (alloc_range 6 4) ex4b))).
Proof.
  assert (Hok : snd (clear cx8 (alloc_range 6 4) ex4b) = Ok tt) by reflexivity.
  pose proof (clear_ptrs_exact cx8 eq_refl ex4b (alloc_range 6 4) wf_ex4b Hok) as Hx.
  split.
  - apply Hx. split; [right; left; reflexivity|unfold alloc_end; simpl; lia].
  - intros Hin. apply Hx in Hin as [_ Hn]. apply Hn. unfold alloc_end; simpl; lia.
Defined.

Lemma clear_get_none_witness :
  get cx8 (fst (clear cx8 (alloc_range 6 4) ex4)) 7 = None.
Proof.
  apply (clear_get_none cx8 eq_refl ex4 (alloc_range 6 4) 7).
  - exact (proj1 wf_ex4).
  - exact (proj2 (proj2 (proj2 (proj2 wf_ex4)))).
  - reflexivity.
  - unfold alloc_end; simpl; lia.
Defined.

Lemma clear_provenances_sub_witness :
  In px (provenances (fst (clear cx8 (alloc_range 6 4) ex4))) /\ In px (provenances ex4).
Proof.
  assert (H1 : In px (provenances (fst (clear cx8 (alloc_range 6 4) ex4))))
    by (vm_compute; left; reflexivity).
  split; [exact H1|].
  exact (clear_provenances_sub cx8 eq_refl ex4 (alloc_range 6 4) px (proj1 wf_ex4) H1).
Defined.

Lemma prepare_copy_no_panic_witness :
  prepare_copy cx8 ex4 (alloc_range 6 4) 100 2 <> Panic /\
  exists c, prepare_copy cx8 ex4 (alloc_range 6 4) 100 2 = Ok c.
Proof.
  destruct (prepare_copy_no_panic cx8 eq_refl ex4 (alloc_range 6 4) 100 2 wf_ex4) as [A B].
  split; [exact A|apply B; reflexivity].
Defined.

Lemma prepare_copy_unsplittable_no_bytes_witness :
  prepare_copy cx8 ai0 (alloc_range 0 8) 16 2 =
    Ok (MkProvenanceCopy [(16, 7%N); (24, 7%N)] []) /\
  dest_bytes (MkProvenanceCopy (Prov:=AllocId) [(16, 7%N); (24, 7%N)] []) = [].
Proof.
  assert (E : prepare_copy cx8 ai0 (alloc_range 0 8) 16 2 =
                Ok (MkProvenanceCopy [(16, 7%N); (24, 7%N)] [])) by reflexivity.
  split; [exact E|].
  exact (prepare_copy_unsplittable_no_bytes cx8 eq_refl ai0 _ _ _ _ eq_refl E).
Defined.

Lemma prepare_copy_provenances_witness :
  prepare_copy cx8 ex4 (alloc_range 6 4) 100 2 = Ok cp6 /\ In px (provenances ex4).
Proof.
  assert (E : prepare_copy cx8 ex4 (alloc_range 6 4) 100 2 = Ok cp6) by reflexivity.
  assert (Hin : In (100, px) (dest_ptrs cp6 ++ dest_bytes cp6)) by (simpl; left; reflexivity).
  split; [exact E|].
  exact (prepare_copy_provenances cx8 eq_refl ex4 _ _ _ _ (100, px) wf_ex4 E Hin).
Defined.

Lemma apply_copy_get_roundtrip_witness :
  prepare_copy cx8 ex4 (alloc_range 2 12) 100 2 = Ok cp2 /\
  get cx8 (apply_copy ex4 cp2) (shift_offset (alloc_range 2 12) 100 1 5) = get cx8 ex4 5.
Proof.
  assert (E : prepare_copy cx8 ex4 (alloc_range 2 12) 100 2 = Ok cp2) by reflexivity.
  assert (Hre : range_empty cx8 ex4 (alloc_range 100 (alloc_size (alloc_range 2 12) * 2)) = true)
    by reflexivity.
  split; [exact E|].
  apply (apply_copy_get_roundtrip cx8 eq_refl ex4 ex4 _ _ _ _ 1 5 wf_ex4 wf_ex4 E Hre).
  - lia.
  - unfold alloc_end; simpl; lia.
Defined.

Lemma apply_copy_get_outside_witness :
  prepare_copy cx8 ex4 (alloc_range 2 12) 100 2 = Ok cp2 /\
  get cx8 (apply_copy ex4 cp2) 6 = get cx8 ex4 6.
Proof.
  assert (E : prepare_copy cx8 ex4 (alloc_range 2 12) 100 2 = Ok cp2) by reflexivity.
  assert (Hre : range_empty cx8 ex4 (alloc_range 100 (alloc_size (alloc_range 2 12) * 2)) = true)
    by reflexivity.
  split; [exact E|].
  apply (apply_copy_get_outside cx8 eq_refl ex4 ex4 _ _ _ _ 6 wf_ex4 wf_ex4 E Hre).
  simpl; lia.
Defined.

Lemma get_ptr_get_witness : get_ptr ex4 4 = Some px /\ get cx8 ex4 4 = Some px.
Proof.
  assert (E : get_ptr ex4 4 = Some px) by reflexivity.
  split; [exact E|exact (get_ptr_get cx8 eq_refl ex4 4 px wf_ex4 E)].
Defined.

End ExtraExamples.
